(** * A translator for expressions over [pow], [+] and [*]

    Shallow embedding of [translator.py]: the scanner, the recursive-descent
    parser and the evaluator, followed by the properties proved about them.

    Python values are modelled as follows.
    - A [str] is the list of its Unicode code points.
    - An [int] is a [Z] (Python integers are unbounded).
    - The attributes of an object are the fields of a record, and a method
      that mutates [self] is a function from the record to the new record.
    - The formatted diagnostic strings are kept as structured records: the
      stage is the record type, the text is a constructor of [Message], and the
      line and column that the text embeds are fields.
    - The builtins [str.isdigit] and [int] that the scanner calls are
      parameters of the scanner: their tables depend on the Unicode data of
      the interpreter. [ascii_isdigit] and [ascii_int] are their values on
      ASCII text.
    - A [while] loop and the recursion of the grammar methods take a bound
      [fuel] on their iterations and nesting; running out of it is an outcome
      of its own, and the theorems show that it does not happen. *)

From Stdlib Require Import String Ascii ZArith NArith Arith Bool Lia List Sorted.
Import ListNotations.
Open Scope Z_scope.

(** ** Characters and strings *)

Definition char := N.
Definition str := list char.

Definition ord (a : ascii) : char := N_of_ascii a.

(** The [str] written as an ASCII literal. *)
Definition text (s : string) : str := map ord (list_ascii_of_string s).

Definition str_eqb (a b : str) : bool :=
  if list_eq_dec N.eq_dec a b then true else false.

(** ** Tokens *)

(** The token types are distinct string constants of the class [Scanner]:
    ['INT'], ['POW'], ['('], [')'], [','], ['+'], ['*'], ['EOF'], ['ERROR']. *)
Inductive TokenType : Set :=
| INT | POW | LPAREN | RPAREN | COMMA | PLUS | MULT | EOF | ERROR.

Definition TokenType_eqb (a b : TokenType) : bool :=
  match a, b with
  | INT, INT | POW, POW | LPAREN, LPAREN | RPAREN, RPAREN | COMMA, COMMA
  | PLUS, PLUS | MULT, MULT | EOF, EOF | ERROR, ERROR => true
  | _, _ => false
  end.

(** What the program stores in [Token.value] and passes around as the value
    of a subtree: [None], an [int] or a [str]. *)
Inductive Value : Set :=
| NoneValue
| IntValue (v : Z)
| StrValue (s : str).

Module Token.
Record t : Set := Token { type : TokenType; value : Value; line : Z; col : Z }.
End Token.

(** ** 1. Scanner *)

Module Scanner.

Inductive Message : Set :=
| NegativeNumber (value : Z)
| InvalidNumber (num_str : str)
| UnknownIdentifier (ch : char)
| UnknownSymbol (ch : char).

Record Error : Set := { message : Message; at_line : Z; at_col : Z }.

Record t : Set := Scanner {
  source : str;
  tokens : list Token.t;
  pos : nat;
  line : Z;
  col : Z;
  errors : list Error
}.

Definition init (source : str) : t :=
  {| source := source; tokens := []; pos := 0; line := 1; col := 1; errors := [] |}.

Definition _add_error (message : Message) (line col : Z) (self : t) : t :=
  {| source := source self; tokens := tokens self; pos := pos self;
     line := Scanner.line self; col := Scanner.col self;
     errors := errors self ++ [{| message := message; at_line := line; at_col := col |}] |}.

(** [self.tokens.append(Token(type, value, line, col))] *)
Definition append (type : TokenType) (value : Value) (line col : Z) (self : t) : t :=
  {| source := source self;
     tokens := tokens self ++ [Token.Token type value line col];
     pos := pos self; line := Scanner.line self; col := Scanner.col self;
     errors := errors self |}.

(** [self.pos += n; self.col += n] *)
Definition forward (n : nat) (self : t) : t :=
  {| source := source self; tokens := tokens self; pos := pos self + n;
     line := line self; col := col self + Z.of_nat n; errors := errors self |}.

(** [self.pos += 1; self.line += 1; self.col = 1] *)
Definition newline (self : t) : t :=
  {| source := source self; tokens := tokens self; pos := pos self + 1;
     line := line self + 1; col := 1; errors := errors self |}.

Section WithBuiltins.

(** [ch.isdigit()] on a one-character string. *)
Variable isdigit : char -> bool.

(** [int(num_str)]; [None] stands for the [ValueError] it can raise. *)
Variable int : str -> option Z.

(** The inner loop of the number branch: the characters it appends to
    [num_str], read from [source[pos:]]. *)
Fixpoint digit_run (rest : str) : str :=
  match rest with
  | ch :: rest' => if isdigit ch then ch :: digit_run rest' else []
  | [] => []
  end.

(** One iteration of the [while] loop of [scan]; the loop guard gives
    [pos < len(source)], so that [source[pos]] exists. *)
Definition step (self : t) : t :=
  match nth_error (source self) (pos self) with
  | None => self
  | Some ch =>
    if (ch =? 32)%N || (ch =? 9)%N then forward 1 self
    else if (ch =? 10)%N then newline self
    else if isdigit ch then
      let start_col := col self in
      let num_str := digit_run (skipn (pos self) (source self)) in
      let self := forward (length num_str) self in
      match int num_str with
      | Some value =>
        if value <? 0 then
          append ERROR (IntValue value) (line self) start_col
            (_add_error (NegativeNumber value) (line self) start_col self)
        else append INT (IntValue value) (line self) start_col self
      | None =>
        append ERROR (StrValue num_str) (line self) start_col
          (_add_error (InvalidNumber num_str) (line self) start_col self)
      end
    else if (ch =? 112)%N then
      if (pos self + 2 <? length (source self))%nat
         && str_eqb (firstn 3 (skipn (pos self) (source self))) [112; 111; 119]%N
      then forward 3 (append POW NoneValue (line self) (col self) self)
      else forward 1 (append ERROR (StrValue [ch]) (line self) (col self)
                        (_add_error (UnknownIdentifier ch) (line self) (col self) self))
    else if (ch =? 40)%N then
      forward 1 (append LPAREN NoneValue (line self) (col self) self)
    else if (ch =? 41)%N then
      forward 1 (append RPAREN NoneValue (line self) (col self) self)
    else if (ch =? 44)%N then
      forward 1 (append COMMA NoneValue (line self) (col self) self)
    else if (ch =? 43)%N then
      forward 1 (append PLUS NoneValue (line self) (col self) self)
    else if (ch =? 42)%N then
      forward 1 (append MULT NoneValue (line self) (col self) self)
    else
      forward 1 (append ERROR (StrValue [ch]) (line self) (col self)
                   (_add_error (UnknownSymbol ch) (line self) (col self) self))
  end.

(** [while self.pos < len(self.source): ...]; [None] when the iterations
    allowed by [fuel] do not reach the end of the loop. *)
Fixpoint loop (fuel : nat) (self : t) : option t :=
  if (pos self <? length (source self))%nat then
    match fuel with
    | O => None
    | S fuel' => loop fuel' (step self)
    end
  else Some self.

(** [Scanner(source).scan()]: the scanner after the call; its [tokens] are
    the returned list. *)
Definition scan (source : str) : option t :=
  match loop (length source) (init source) with
  | Some self => Some (append EOF NoneValue (line self) (col self) self)
  | None => None
  end.

End WithBuiltins.

End Scanner.

(** The builtins on ASCII text: the digits are ['0'..'9'] and [int] reads a
    run of them in base ten. *)
Definition ascii_isdigit (ch : char) : bool := ((48 <=? ch) && (ch <=? 57))%N.

Definition decimal (num_str : str) : Z :=
  fold_left (fun acc ch => 10 * acc + (Z.of_N ch - 48)) num_str 0.

Definition ascii_int (num_str : str) : option Z :=
  if forallb ascii_isdigit num_str && negb (str_eqb num_str []) then Some (decimal num_str)
  else None.

(** ** 2. Parser *)

(** The tuples built by the parser: [('INT', value)], [('+', l, r)],
    [('*', l, r)] and [('pow', arg1, arg2)]. *)
Inductive AST : Set :=
| IntLiteral (value : Value)
| Add (l r : AST)
| Mul (l r : AST)
| Pow (arg1 arg2 : AST).

Module Parser.

Inductive Message : Set :=
| Expected (expected_type got : TokenType)
| ExpectedComma
| ExpectedRParen
| ExpectedAtom (got : TokenType)
| Trailing (got : TokenType).

Record Error : Set := { message : Message; at_line : Z; at_col : Z }.

Record t : Set := Parser {
  tokens : list Token.t;
  pos : nat;
  current_token : option Token.t;
  errors : list Error
}.

(** The exceptions that the accesses of the parser could raise:
    [None.type] and [tokens[pos]] out of range; and the one that a call
    raises at the recursion limit of the interpreter, which only the methods
    of section 6 count. *)
Inductive Exception : Set := AttributeError | IndexError | RecursionError.

(** A method call returns a value and the parser after the call, or raises,
    or needs more nested calls and loop iterations than [fuel] allows. *)
Inductive Outcome (A : Type) : Type :=
| Return (a : A) (self : t)
| Raise (e : Exception)
| OutOfFuel.
Arguments Return {A} a self.
Arguments Raise {A} e.
Arguments OutOfFuel {A}.

Definition M (A : Type) : Type := t -> Outcome A.

Definition ret {A} (a : A) : M A := fun self => Return a self.

Definition bind {A B} (m : M A) (k : A -> M B) : M B :=
  fun self =>
    match m self with
    | Return a self' => k a self'
    | Raise e => Raise e
    | OutOfFuel => OutOfFuel
    end.

Notation "x <- m ;; k" := (bind m (fun x => k))
  (at level 61, m at next level, right associativity).
Notation "m ;; k" := (bind m (fun _ => k))
  (at level 61, right associativity).

(** [self.current_token], as the receiver of an attribute access. *)
Definition current : M Token.t :=
  fun self =>
    match current_token self with
    | Some token => Return token self
    | None => Raise AttributeError
    end.

Definition _advance : M (option Token.t) :=
  fun self =>
    if (pos self <? length (tokens self))%nat then
      match nth_error (tokens self) (pos self) with
      | Some token =>
        Return (Some token)
          {| tokens := tokens self; pos := pos self + 1;
             current_token := Some token; errors := errors self |}
      | None => Raise IndexError
      end
    else Return (current_token self) self.

Definition _add_error (message : Message) (line col : Z) : M unit :=
  fun self =>
    Return tt
      {| tokens := tokens self; pos := pos self; current_token := current_token self;
         errors := errors self ++ [{| message := message; at_line := line; at_col := col |}] |}.

Definition _match (expected_type : TokenType) : M (option Token.t) :=
  cur <- current ;;
  if TokenType_eqb (Token.type cur) expected_type then
    token <- current ;;
    _advance ;;
    ret (Some token)
  else
    got <- current ;;
    _add_error (Expected expected_type (Token.type got)) (Token.line got) (Token.col got) ;;
    ret None.

(** [_peek]: the token after the current one, or [None] at the end. *)
Definition _peek (self : t) : Outcome (option Token.t) :=
  if (pos self <? length (tokens self))%nat then
    match nth_error (tokens self) (pos self) with
    | Some token => Return (Some token) self
    | None => Raise IndexError
    end
  else Return None self.

(** The one-element tuples [('+',)] and [('*',)] returned by the tail
    methods are modelled by their element. *)
Definition parse_sum_tail : M (option TokenType) :=
  cur <- current ;;
  if TokenType_eqb (Token.type cur) PLUS then
    token <- _match PLUS ;;
    match token with
    | None => ret None
    | Some _ => ret (Some PLUS)
    end
  else ret None.

Definition parse_prod_tail : M (option TokenType) :=
  cur <- current ;;
  if TokenType_eqb (Token.type cur) MULT then
    token <- _match MULT ;;
    match token with
    | None => ret None
    | Some _ => ret (Some MULT)
    end
  else ret None.

Section Descent.

(** The call [self.parse_expr()] made by [parse_atom]. *)
Variable parse_expr : M (option AST).

Definition parse_atom : M (option AST) :=
  cur <- current ;;
  if TokenType_eqb (Token.type cur) INT then
    token <- _match INT ;;
    match token with
    | None => ret None
    | Some token => ret (Some (IntLiteral (Token.value token)))
    end
  else if TokenType_eqb (Token.type cur) POW then
    pow_token <- _match POW ;;
    match pow_token with
    | None => ret None
    | Some _ =>
      lparen <- _match LPAREN ;;
      match lparen with
      | None => ret None
      | Some _ =>
        arg1 <- parse_expr ;;
        match arg1 with
        | None => ret None
        | Some arg1 =>
          comma <- _match COMMA ;;
          match comma with
          | None =>
            got <- current ;;
            _add_error ExpectedComma (Token.line got) (Token.col got) ;;
            ret None
          | Some _ =>
            arg2 <- parse_expr ;;
            match arg2 with
            | None => ret None
            | Some arg2 =>
              rparen <- _match RPAREN ;;
              match rparen with
              | None =>
                got <- current ;;
                _add_error ExpectedRParen (Token.line got) (Token.col got) ;;
                ret None
              | Some _ => ret (Some (Pow arg1 arg2))
              end
            end
          end
        end
      end
    end
  else
    got <- current ;;
    _add_error (ExpectedAtom (Token.type got)) (Token.line got) (Token.col got) ;;
    ret None.

(** Bound on the iterations of each of the two loops. *)
Variable fuel : nat.

(** [while prod_tail_node: ...] in [parse_prod], with [n] iterations left. *)
Fixpoint prod_while (n : nat) (node : AST) (prod_tail_node : option TokenType)
  : M (option AST) :=
  match prod_tail_node with
  | None => ret (Some node)
  | Some op =>
    match n with
    | O => fun _ => OutOfFuel
    | S n' =>
      if TokenType_eqb op MULT then
        right' <- parse_atom ;;
        match right' with
        | None => ret None
        | Some right' =>
          prod_tail_node <- parse_prod_tail ;;
          prod_while n' (Mul node right') prod_tail_node
        end
      else ret (Some node)
    end
  end.

Definition parse_prod : M (option AST) :=
  node <- parse_atom ;;
  match node with
  | None => ret None
  | Some node =>
    prod_tail_node <- parse_prod_tail ;;
    match prod_tail_node with
    | None => ret (Some node)
    | Some _ => prod_while fuel node prod_tail_node
    end
  end.

(** [while sum_tail_node: ...] in [parse_sum], with [n] iterations left. *)
Fixpoint sum_while (n : nat) (node : AST) (sum_tail_node : option TokenType)
  : M (option AST) :=
  match sum_tail_node with
  | None => ret (Some node)
  | Some op =>
    match n with
    | O => fun _ => OutOfFuel
    | S n' =>
      if TokenType_eqb op PLUS then
        right' <- parse_prod ;;
        match right' with
        | None => ret None
        | Some right' =>
          sum_tail_node <- parse_sum_tail ;;
          sum_while n' (Add node right') sum_tail_node
        end
      else ret (Some node)
    end
  end.

Definition parse_sum : M (option AST) :=
  node <- parse_prod ;;
  match node with
  | None => ret None
  | Some node =>
    sum_tail_node <- parse_sum_tail ;;
    match sum_tail_node with
    | None => ret (Some node)
    | Some _ => sum_while fuel node sum_tail_node
    end
  end.

End Descent.

(** [fuel] bounds the nesting of [parse_expr] calls and the iterations of
    each loop below them. *)
Fixpoint parse_expr (fuel : nat) : M (option AST) :=
  match fuel with
  | O => fun _ => OutOfFuel
  | S fuel' => parse_sum (parse_expr fuel') fuel'
  end.

Definition parse (fuel : nat) : M (option AST) :=
  ast <- parse_expr fuel ;;
  cur <- current ;;
  (if negb (TokenType_eqb (Token.type cur) EOF) then
     got <- current ;;
     _add_error (Trailing (Token.type got)) (Token.line got) (Token.col got)
   else ret tt) ;;
  ret ast.

(** [Parser(tokens)]: the constructor ends with a call of [_advance]. *)
Definition init (tokens : list Token.t) : Outcome (option Token.t) :=
  _advance {| tokens := tokens; pos := 0; current_token := None; errors := [] |}.

(** [Parser(tokens).parse()]. *)
Definition run_with (fuel : nat) (tokens : list Token.t) : Outcome (option AST) :=
  match init tokens with
  | Return _ self => parse fuel self
  | Raise e => Raise e
  | OutOfFuel => OutOfFuel
  end.

(** The same, with the fuel that a token list ending with [EOF] needs. *)
Definition run (tokens : list Token.t) : Outcome (option AST) :=
  run_with (length tokens) tokens.

End Parser.

(** ** 3. Semantic analyzer *)

Module SemanticAnalyzer.

Inductive Message : Set :=
| EmptyAST
| NegativeSum (left_val right_val : Z)
| NegativeProduct (left_val right_val : Z)
| NegativePowArguments (base : Z) (exponent : Value)
| ExponentTooLarge (exponent : Z)
| NegativePowResult (base exponent : Z).

(** A call of [evaluate] returns a value and the list [self.errors] after
    the call, or raises the [TypeError] of an arithmetic operation or a
    comparison on a [str]. *)
Inductive Outcome : Set :=
| Return (value : Value) (errors : list Message)
| TypeError.

(** [self.evaluate(node)] for a node of the tree. The [except OverflowError]
    handlers are left out: [+], [*] and [pow] on [int] do not raise it. The
    last [else] (unknown node type) has no counterpart: the four
    constructors of [AST] are the node types. *)
Fixpoint evaluate_node (node : AST) (errors : list Message) : Outcome :=
  match node with
  | IntLiteral value => Return value errors
  | Add l r =>
    match evaluate_node l errors with
    | TypeError => TypeError
    | Return left_val errors =>
      match evaluate_node r errors with
      | TypeError => TypeError
      | Return right_val errors =>
        match left_val, right_val with
        | NoneValue, _ | _, NoneValue => Return NoneValue errors
        | IntValue left_val, IntValue right_val =>
          let result := left_val + right_val in
          if result <? 0 then
            Return NoneValue (errors ++ [NegativeSum left_val right_val])
          else Return (IntValue result) errors
        | _, _ => TypeError
        end
      end
    end
  | Mul l r =>
    match evaluate_node l errors with
    | TypeError => TypeError
    | Return left_val errors =>
      match evaluate_node r errors with
      | TypeError => TypeError
      | Return right_val errors =>
        match left_val, right_val with
        | NoneValue, _ | _, NoneValue => Return NoneValue errors
        | IntValue left_val, IntValue right_val =>
          let result := left_val * right_val in
          if result <? 0 then
            Return NoneValue (errors ++ [NegativeProduct left_val right_val])
          else Return (IntValue result) errors
        | _, _ => TypeError
        end
      end
    end
  | Pow arg1 arg2 =>
    match evaluate_node arg1 errors with
    | TypeError => TypeError
    | Return base errors =>
      match evaluate_node arg2 errors with
      | TypeError => TypeError
      | Return exponent errors =>
        match base, exponent with
        | NoneValue, _ | _, NoneValue => Return NoneValue errors
        | StrValue _, _ => TypeError
        | IntValue base, _ =>
          if base <? 0 then
            Return NoneValue (errors ++ [NegativePowArguments base exponent])
          else
            match exponent with
            | IntValue exponent =>
              if exponent <? 0 then
                Return NoneValue
                  (errors ++ [NegativePowArguments base (IntValue exponent)])
              else if exponent >? 1000 then
                Return NoneValue (errors ++ [ExponentTooLarge exponent])
              else
                let result := base ^ exponent in
                if result <? 0 then
                  Return NoneValue (errors ++ [NegativePowResult base exponent])
                else Return (IntValue result) errors
            | _ => TypeError
            end
        end
      end
    end
  end.

(** [SemanticAnalyzer(ast).evaluate()]: the call without a node, on the
    tree (or [None]) given to the constructor. *)
Definition evaluate (ast : option AST) : Outcome :=
  match ast with
  | None => Return NoneValue [EmptyAST]
  | Some node => evaluate_node node []
  end.

End SemanticAnalyzer.

(** ** 4. The three stages in sequence *)

Record Translation : Set := {
  scanner_errors : list Scanner.Error;
  parser_errors : list Parser.Error;
  semantic_errors : list SemanticAnalyzer.Message;
  result : Value
}.

(** Scan, then parse, then evaluate; [None] when a stage does not return. *)
Definition translate (isdigit : char -> bool) (int : str -> option Z) (source : str)
  : option Translation :=
  match Scanner.scan isdigit int source with
  | None => None
  | Some scanner =>
    match Parser.run (Scanner.tokens scanner) with
    | Parser.Return ast parser =>
      match SemanticAnalyzer.evaluate ast with
      | SemanticAnalyzer.Return value errors =>
        Some {| scanner_errors := Scanner.errors scanner;
                parser_errors := Parser.errors parser;
                semantic_errors := errors;
                result := value |}
      | SemanticAnalyzer.TypeError => None
      end
    | _ => None
    end
  end.

(** ** 5. The main program *)



(** * Vocabulary of the statements *)

(** Positions are compared line first, then column. *)
Definition position_le (a b : Z * Z) : Prop :=
  fst a < fst b \/ (fst a = fst b /\ snd a <= snd b).

Definition token_position (token : Token.t) : Z * Z :=
  (Token.line token, Token.col token).

Definition token_le (a b : Token.t) : Prop :=
  position_le (token_position a) (token_position b).

Definition is_error (token : Token.t) : bool := TokenType_eqb (Token.type token) ERROR.

Definition error_position (e : Scanner.Error) : Z * Z :=
  (Scanner.at_line e, Scanner.at_col e).

(** What one iteration of the loop does to the scanner: it moves forward by
    at least one character, within the source, and appends at most one token,
    together with one diagnostic exactly when the token is an [ERROR]. *)
Inductive stepped (isdigit : char -> bool) (int : str -> option Z) (self : Scanner.t)
  : Scanner.t -> Prop :=
| stepped_blank :
    (Scanner.pos self + 1 <= length (Scanner.source self))%nat ->
    stepped isdigit int self (Scanner.forward 1 self)
| stepped_newline :
    (Scanner.pos self + 1 <= length (Scanner.source self))%nat ->
    stepped isdigit int self (Scanner.newline self)
| stepped_int n num_str value :
    (1 <= n)%nat ->
    (Scanner.pos self + n <= length (Scanner.source self))%nat ->
    forallb isdigit num_str = true ->
    int num_str = Some value ->
    0 <= value ->
    stepped isdigit int self
      (Scanner.forward n
         (Scanner.append INT (IntValue value) (Scanner.line self) (Scanner.col self) self))
| stepped_token n type :
    (1 <= n)%nat ->
    (Scanner.pos self + n <= length (Scanner.source self))%nat ->
    type <> EOF -> type <> ERROR -> type <> INT ->
    stepped isdigit int self
      (Scanner.forward n
         (Scanner.append type NoneValue (Scanner.line self) (Scanner.col self) self))
| stepped_error n value message :
    (1 <= n)%nat ->
    (Scanner.pos self + n <= length (Scanner.source self))%nat ->
    (forall v, message = Scanner.NegativeNumber v ->
               exists num_str, forallb isdigit num_str = true /\ int num_str = Some v /\ v < 0) ->
    stepped isdigit int self
      (Scanner.forward n
         (Scanner.append ERROR value (Scanner.line self) (Scanner.col self)
            (Scanner._add_error message (Scanner.line self) (Scanner.col self) self))).



(** While the loop runs no token is an [EOF], the tokens are in source
    order, and none lies after the current position. *)
Definition ordered (self : Scanner.t) : Prop :=
  Forall (fun token => Token.type token <> EOF) (Scanner.tokens self)
  /\ StronglySorted token_le (Scanner.tokens self)
  /\ Forall (fun token => position_le (token_position token)
                            (Scanner.line self, Scanner.col self))
       (Scanner.tokens self).

(** The diagnostics and the [ERROR] tokens correspond one to one, in order,
    at the same positions. *)
Definition paired (self : Scanner.t) : Prop :=
  map error_position (Scanner.errors self)
  = map token_position (filter is_error (Scanner.tokens self)).

(** The two operands of an operation node. *)
Definition operands (node : AST) : option (AST * AST) :=
  match node with
  | IntLiteral _ => None
  | Add l r | Mul l r | Pow l r => Some (l, r)
  end.

(** The domain rule that an operation node breaks on the operand values
    [left_val] and [right_val], with the diagnostic recorded for it. *)
Definition domain_violation (node : AST) (left_val right_val : Value)
  (message : SemanticAnalyzer.Message) : Prop :=
  match node, left_val with
  | Add _ _, IntValue a =>
    exists b, right_val = IntValue b /\ a + b < 0
              /\ message = SemanticAnalyzer.NegativeSum a b
  | Mul _ _, IntValue a =>
    exists b, right_val = IntValue b /\ a * b < 0
              /\ message = SemanticAnalyzer.NegativeProduct a b
  | Pow _ _, IntValue a =>
    (a < 0 /\ message = SemanticAnalyzer.NegativePowArguments a right_val)
    \/ (exists b, right_val = IntValue b /\ 0 <= a
                  /\ ((b < 0 /\ message = SemanticAnalyzer.NegativePowArguments a (IntValue b))
                      \/ (1000 < b /\ message = SemanticAnalyzer.ExponentTooLarge b)
                      \/ (0 <= b <= 1000 /\ a ^ b < 0
                          /\ message = SemanticAnalyzer.NegativePowResult a b)))
  | _, _ => False
  end.

(** What the program relies on from the builtins on ASCII text: [isdigit]
    holds of ['0'] to ['9'] only, and [int] reads a non-empty run of them in
    base ten (runs up to 640 digits are below every limit that [int] can be
    configured with). *)
Definition ascii_builtins (isdigit : char -> bool) (int : str -> option Z) : Prop :=
  (forall ch, (ch < 128)%N -> isdigit ch = ascii_isdigit ch)
  /\ (forall num_str,
         num_str <> [] -> forallb ascii_isdigit num_str = true ->
         (length num_str <= 640)%nat ->
         int num_str = Some (decimal num_str)).

(** A translation that recorded no diagnostic at any stage. *)
Definition clean (value : Z) : Translation :=
  {| scanner_errors := []; parser_errors := []; semantic_errors := [];
     result := IntValue value |}.

(** An atom of the grammar: a literal or a [pow] call. *)
Definition is_atom (ast : AST) : bool :=
  match ast with
  | IntLiteral _ | Pow _ _ => true
  | Add _ _ | Mul _ _ => false
  end.

(** A product of the grammar: anything but a sum. *)
Definition is_prod (ast : AST) : bool :=
  match ast with
  | Add _ _ => false
  | _ => true
  end.

(** Every chain of one operator is grouped to the left: the right operand of
    a sum is a product, the right operand of a product is an atom, and no
    product has a sum as an operand. *)
Fixpoint left_assoc (ast : AST) : bool :=
  match ast with
  | IntLiteral _ => true
  | Add l r => left_assoc l && left_assoc r && is_prod r
  | Mul l r => left_assoc l && left_assoc r && is_prod l && is_atom r
  | Pow arg1 arg2 => left_assoc arg1 && left_assoc arg2
  end.

Fixpoint literals (ast : AST) : list Value :=
  match ast with
  | IntLiteral value => [value]
  | Add l r | Mul l r | Pow l r => literals l ++ literals r
  end.

(** Every literal of the tree is the value of an [INT] token of the list. *)
Definition from_tokens (tokens : list Token.t) (ast : AST) : Prop :=
  forall value, In value (literals ast) ->
    exists token, In token tokens /\ Token.type token = INT /\ Token.value token = value.

(** The diagnostic with the text [message] at the position of [token]. *)
Definition report (token : Token.t) (message : Parser.Message) : Parser.Error :=
  {| Parser.message := message;
     Parser.at_line := Token.line token; Parser.at_col := Token.col token |}.

(** The diagnostics that a grammar method records when it returns [None] with
    the current token [token]: the unmet expectation, and for the comma and
    the closing parenthesis of [pow] a second diagnostic from [parse_atom]. *)
Definition failure_reports (token : Token.t) (reports : list Parser.Error) : Prop :=
  (Token.type token <> LPAREN
   /\ reports = [report token (Parser.Expected LPAREN (Token.type token))])
  \/ (Token.type token <> COMMA
      /\ reports = [report token (Parser.Expected COMMA (Token.type token));
                    report token Parser.ExpectedComma])
  \/ (Token.type token <> RPAREN
      /\ reports = [report token (Parser.Expected RPAREN (Token.type token));
                    report token Parser.ExpectedRParen])
  \/ (Token.type token <> INT /\ Token.type token <> POW
      /\ reports = [report token (Parser.ExpectedAtom (Token.type token))]).

(** The current token is one of the tokens of the list. *)
Definition linked (self : Parser.t) : Prop :=
  forall token, Parser.current_token self = Some token -> In token (Parser.tokens self).

Definition with_error (self : Parser.t) (e : Parser.Error) : Parser.t :=
  {| Parser.tokens := Parser.tokens self; Parser.pos := Parser.pos self;
     Parser.current_token := Parser.current_token self;
     Parser.errors := Parser.errors self ++ [e] |}.

(** [Q] holds of the result and the parser after the call whenever the
    call returns. *)
Definition wlp {A} (m : Parser.M A) (self : Parser.t) (Q : A -> Parser.t -> Prop) : Prop :=
  forall a self', m self = Parser.Return a self' -> Q a self'.

(** The parser after a call that consumed tokens and recorded nothing. *)
Definition moved (self self' : Parser.t) : Prop :=
  Parser.tokens self' = Parser.tokens self
  /\ Parser.errors self' = Parser.errors self
  /\ (linked self -> linked self').

(** What the three levels of the grammar build from the tokens. *)
Definition atom_ok (tokens : list Token.t) (ast : AST) : Prop :=
  left_assoc ast = true /\ is_atom ast = true /\ from_tokens tokens ast.

Definition prod_ok (tokens : list Token.t) (ast : AST) : Prop :=
  left_assoc ast = true /\ is_prod ast = true /\ from_tokens tokens ast.

Definition sum_ok (tokens : list Token.t) (ast : AST) : Prop :=
  left_assoc ast = true /\ from_tokens tokens ast.

(** The result [r] of a grammar method called on [self], and the parser
    [self'] after the call: a tree and no new diagnostic, or [None] and the
    diagnostics of one failure, at the token that is current on return. *)
Definition outcome (Q : list Token.t -> AST -> Prop) (self : Parser.t)
  (r : option AST) (self' : Parser.t) : Prop :=
  Parser.tokens self' = Parser.tokens self
  /\ linked self'
  /\ match r with
     | Some ast => Parser.errors self' = Parser.errors self /\ Q (Parser.tokens self) ast
     | None =>
       exists token reports,
         Parser.current_token self' = Some token
         /\ Parser.errors self' = Parser.errors self ++ reports
         /\ failure_reports token reports
     end.

Definition sound (Q : list Token.t -> AST -> Prop) (m : Parser.M (option AST)) : Prop :=
  forall self, linked self -> wlp m self (outcome Q self).

(** The diagnostic that [parse] adds when the token that is current after
    [parse_expr] is not [EOF]. *)
Definition trailing_reports (token : Token.t) : list Parser.Error :=
  if TokenType_eqb (Token.type token) EOF then []
  else [report token (Parser.Trailing (Token.type token))].

(** The unmet expectation that a first diagnostic reports against the token
    [token]: a token type other than its own, an atom, or the end of the
    input after a tree was built. *)
Definition unmet_expectation (token : Token.t) (ast : option AST)
  (message : Parser.Message) : Prop :=
  (exists expected,
      expected <> Token.type token
      /\ message = Parser.Expected expected (Token.type token))
  \/ (Token.type token <> INT /\ Token.type token <> POW
      /\ message = Parser.ExpectedAtom (Token.type token))
  \/ (ast <> None /\ Token.type token <> EOF
      /\ message = Parser.Trailing (Token.type token)).

(** The diagnostic lies at the position of the token. *)
Definition located (token : Token.t) (e : Parser.Error) : Prop :=
  Parser.at_line e = Token.line token /\ Parser.at_col e = Token.col token.

(** Scanning a text and parsing its tokens: the tree and the diagnostics of
    the parser. *)
Definition parse_text (isdigit : char -> bool) (int : str -> option Z) (source : str)
  : option (option AST * list Parser.Error) :=
  match Scanner.scan isdigit int source with
  | Some scanner =>
    match Parser.run (Scanner.tokens scanner) with
    | Parser.Return ast parser => Some (ast, Parser.errors parser)
    | _ => None
    end
  | None => None
  end.

(** The tokens of [pow(1 2)], a call of [pow] without its comma. *)
Definition missing_comma : list Token.t :=
  [Token.Token POW NoneValue 1 1; Token.Token LPAREN NoneValue 1 4;
   Token.Token INT (IntValue 1) 1 5; Token.Token INT (IntValue 2) 1 7;
   Token.Token RPAREN NoneValue 1 8; Token.Token EOF NoneValue 1 9].

(** The parser after the parse of [pow(1 2)]. *)
Definition missing_comma_parser : Parser.t :=
  {| Parser.tokens := missing_comma;
     Parser.pos := 4;
     Parser.current_token := Some (Token.Token INT (IntValue 2) 1 7);
     Parser.errors :=
       [{| Parser.message := Parser.Expected COMMA INT;
           Parser.at_line := 1; Parser.at_col := 7 |};
        {| Parser.message := Parser.ExpectedComma;
           Parser.at_line := 1; Parser.at_col := 7 |};
        {| Parser.message := Parser.Trailing INT;
           Parser.at_line := 1; Parser.at_col := 7 |}] |}.

(** The literal node of an integer. *)
Definition lit (value : Z) : AST := IntLiteral (IntValue value).

(** The parser over a token list that ends with [EOF]: the current token is
    the one before [pos]. *)
Definition well_formed (self : Parser.t) : Prop :=
  (1 <= Parser.pos self <= length (Parser.tokens self))%nat
  /\ Parser.current_token self = nth_error (Parser.tokens self) (Parser.pos self - 1)
  /\ exists eof,
       nth_error (Parser.tokens self) (length (Parser.tokens self) - 1) = Some eof
       /\ Token.type eof = EOF.

(** The number of tokens after the current one. *)
Definition remaining (self : Parser.t) : nat :=
  length (Parser.tokens self) - Parser.pos self.

(** The call returns, and [Q] holds of the result and the parser after it. *)
Definition wp {A} (m : Parser.M A) (self : Parser.t) (Q : A -> Parser.t -> Prop) : Prop :=
  exists a self', m self = Parser.Return a self' /\ Q a self'.

(** A grammar method that returns leaves the parser well formed and not
    behind where it was, and strictly ahead when it returns a tree. *)
Definition progress (self : Parser.t) (r : option AST) (self' : Parser.t) : Prop :=
  well_formed self'
  /\ (remaining self' <= remaining self)%nat
  /\ (r <> None -> (remaining self' < remaining self)%nat).

(** [m] returns whenever fewer than [bound] tokens remain. *)
Definition terminates (bound : nat) (m : Parser.M (option AST)) : Prop :=
  forall self, well_formed self -> (remaining self < bound)%nat -> wp m self (progress self).

(** Whatever [m] returns, [m'] returns too. *)
Definition refines {A} (m m' : Parser.M A) : Prop :=
  forall self a self', m self = Parser.Return a self' -> m' self = Parser.Return a self'.

(** The tokens of [pow(2,3)]. *)
Definition pow_call : list Token.t :=
  [Token.Token POW NoneValue 1 1; Token.Token LPAREN NoneValue 1 4;
   Token.Token INT (IntValue 2) 1 5; Token.Token COMMA NoneValue 1 6;
   Token.Token INT (IntValue 3) 1 7; Token.Token RPAREN NoneValue 1 8].

(** A node with all the nodes below it. *)
Fixpoint subtrees (ast : AST) : list AST :=
  ast :: match ast with
         | IntLiteral _ => []
         | Add l r | Mul l r | Pow l r => subtrees l ++ subtrees r
         end.

(** [None], or an integer that is not negative. *)
Definition natural_or_none (value : Value) : Prop :=
  value = NoneValue \/ exists v, value = IntValue v /\ 0 <= v.

(** Every literal of the tree is an integer that is not negative. *)
Definition natural_literals (ast : AST) : Prop :=
  forall value, In value (literals ast) -> exists v, value = IntValue v /\ 0 <= v.

(** Every [INT] token carries an integer that is not negative. *)
Definition natural_tokens (tokens : list Token.t) : Prop :=
  forall token, In token tokens -> Token.type token = INT ->
    exists value, Token.value token = IntValue value /\ 0 <= value.

(** [int] returns no negative number on a run of digits. *)
Definition int_natural (isdigit : char -> bool) (int : str -> option Z) : Prop :=
  forall num_str value,
    forallb isdigit num_str = true -> int num_str = Some value -> 0 <= value.

(** The branch for a negative literal was not taken. *)
Definition no_negative_literal (errors : list Scanner.Error) : Prop :=
  forall e value, In e errors -> Scanner.message e <> Scanner.NegativeNumber value.

(** ** Vocabulary of the further properties *)



(** What the loop has produced fits what it has read: one token at most for
    each character, and one diagnostic at most for each token. *)
Definition within_input (self : Scanner.t) : Prop :=
  (length (Scanner.tokens self) <= Scanner.pos self)%nat
  /\ (length (Scanner.errors self) <= length (Scanner.tokens self))%nat.

(** The position after the characters [chars], read from the position [p]: a
    newline starts a line, any other character takes a column. *)
Fixpoint position_after (chars : str) (p : Z * Z) : Z * Z :=
  match chars with
  | [] => p
  | ch :: rest =>
    position_after rest (if (ch =? 10)%N then (fst p + 1, 1) else (fst p, snd p + 1))
  end.

(** The line and column of the character number [n] of the source, counting
    lines and columns from one. *)
Definition position_at (source : str) (n : nat) : Z * Z :=
  position_after (firstn n source) (1, 1).

(** The character that a token of the type starts with. *)
Definition begins (isdigit : char -> bool) (type : TokenType) (ch : char) : bool :=
  match type with
  | INT => isdigit ch
  | POW => (ch =? 112)%N
  | LPAREN => (ch =? 40)%N
  | RPAREN => (ch =? 41)%N
  | COMMA => (ch =? 44)%N
  | PLUS => (ch =? 43)%N
  | MULT => (ch =? 42)%N
  | ERROR => true
  | EOF => false
  end.

(** The token lies where a character that starts it lies in the source. *)
Definition token_in_source (isdigit : char -> bool) (source : str) (token : Token.t) : Prop :=
  exists n ch,
    nth_error source n = Some ch
    /\ token_position token = position_at source n
    /\ begins isdigit (Token.type token) ch = true.

(** The diagnostic lies where a character lies in the source. *)
Definition error_in_source (source : str) (e : Scanner.Error) : Prop :=
  exists n, (n < length source)%nat /\ error_position e = position_at source n.

(** The line and the column of the scanner are those of the character at
    [pos], and what it has produced lies in the source. *)
Definition tracked (isdigit : char -> bool) (self : Scanner.t) : Prop :=
  (Scanner.line self, Scanner.col self) = position_at (Scanner.source self) (Scanner.pos self)
  /\ Forall (token_in_source isdigit (Scanner.source self)) (Scanner.tokens self)
  /\ Forall (error_in_source (Scanner.source self)) (Scanner.errors self).

(** The token types that spell a tree in the grammar of the parser. *)
Fixpoint flatten (ast : AST) : list TokenType :=
  match ast with
  | IntLiteral _ => [INT]
  | Add l r => flatten l ++ [PLUS] ++ flatten r
  | Mul l r => flatten l ++ [MULT] ++ flatten r
  | Pow arg1 arg2 => [POW; LPAREN] ++ flatten arg1 ++ [COMMA] ++ flatten arg2 ++ [RPAREN]
  end.

Definition is_int (token : Token.t) : bool := TokenType_eqb (Token.type token) INT.

(** The tokens spell the tree: their types are those of the tree in order,
    and the values of the [INT] tokens are its literals in order. *)
Definition spells (tokens : list Token.t) (ast : AST) : Prop :=
  map Token.type tokens = flatten ast
  /\ map Token.value (filter is_int tokens) = literals ast.

(** The tokens that the parser has not consumed: the current one and those
    after it. *)
Definition view (self : Parser.t) : list Token.t :=
  skipn (Parser.pos self - 1) (Parser.tokens self).

(** A grammar method that returns a tree has consumed the tokens that spell
    it, and nothing else has changed. *)
Definition parsed (self : Parser.t) (r : option AST) (self' : Parser.t) : Prop :=
  well_formed self'
  /\ Parser.tokens self' = Parser.tokens self
  /\ match r with
     | Some ast =>
       Parser.errors self' = Parser.errors self
       /\ exists tokens, tokens <> [] /\ view self = tokens ++ view self' /\ spells tokens ast
     | None => True
     end.

(** [m] returns what [parsed] says whenever at most [bound] tokens are left. *)
Definition parses (bound : nat) (m : Parser.M (option AST)) : Prop :=
  forall self,
    well_formed self -> (length (view self) <= bound)%nat -> wp m self (parsed self).

(** What a loop of the parser returns after the tokens [before], which
    spell [node] and, when the loop goes on, the operator after it. *)
Definition pending (op : TokenType) (before : list Token.t) (node : AST)
  (tail_node : option TokenType) : Prop :=
  match tail_node with
  | None => spells before node
  | Some o =>
    o = op
    /\ exists operand operator,
         before = operand ++ [operator] /\ spells operand node /\ Token.type operator = op
  end.

Definition continued (before : list Token.t) (self : Parser.t) (r : option AST)
  (self' : Parser.t) : Prop :=
  well_formed self'
  /\ Parser.tokens self' = Parser.tokens self
  /\ match r with
     | Some ast =>
       Parser.errors self' = Parser.errors self
       /\ exists tokens, view self = tokens ++ view self' /\ spells (before ++ tokens) ast
     | None => True
     end.












(** ** Concrete inputs *)



Definition end_of_at_sign : Scanner.t :=
  {| Scanner.source := text "1@2";
     Scanner.tokens := [Token.Token INT (IntValue 1) 1 1;
                        Token.Token ERROR (StrValue [64%N]) 1 2;
                        Token.Token INT (IntValue 2) 1 3];
     Scanner.pos := 3; Scanner.line := 1; Scanner.col := 4;
     Scanner.errors := [{| Scanner.message := Scanner.UnknownSymbol 64%N;
                           Scanner.at_line := 1; Scanner.at_col := 2 |}] |}.

(** The tokens of [1+2+3] and of [2*3*4]. *)
Definition sum_chain : list Token.t :=
  [Token.Token INT (IntValue 1) 1 1; Token.Token PLUS NoneValue 1 2;
   Token.Token INT (IntValue 2) 1 3; Token.Token PLUS NoneValue 1 4;
   Token.Token INT (IntValue 3) 1 5; Token.Token EOF NoneValue 1 6].

Definition prod_chain : list Token.t :=
  [Token.Token INT (IntValue 2) 1 1; Token.Token MULT NoneValue 1 2;
   Token.Token INT (IntValue 3) 1 3; Token.Token MULT NoneValue 1 4;
   Token.Token INT (IntValue 4) 1 5; Token.Token EOF NoneValue 1 6].

(** The parser with the token number [n] of the list as its current token. *)
Definition at_token (tokens : list Token.t) (n : nat) : Parser.t :=
  {| Parser.tokens := tokens; Parser.pos := n;
     Parser.current_token := nth_error tokens (n - 1); Parser.errors := [] |}.

(** The text [1+], a newline and [pow]. *)
Definition two_lines : str := text "1+" ++ [10%N] ++ text "pow".

(** The tokens of [1 2], and the parser after their parse. *)
Definition two_literals : list Token.t :=
  [Token.Token INT (IntValue 1) 1 1; Token.Token INT (IntValue 2) 1 3;
   Token.Token EOF NoneValue 1 4].

Definition two_literals_parser : Parser.t :=
  {| Parser.tokens := two_literals;
     Parser.pos := 2;
     Parser.current_token := Some (Token.Token INT (IntValue 2) 1 3);
     Parser.errors :=
       [{| Parser.message := Parser.Trailing INT;
           Parser.at_line := 1; Parser.at_col := 3 |}] |}.

(** The scanner after the scan of [1@2], and the parser after the parse of
    its tokens. *)
Definition at_sign_scanner : Scanner.t :=
  Scanner.append EOF NoneValue 1 4 end_of_at_sign.

Definition at_sign_parser : Parser.t :=
  {| Parser.tokens := Scanner.tokens at_sign_scanner;
     Parser.pos := 2;
     Parser.current_token := Some (Token.Token ERROR (StrValue [64%N]) 1 2);
     Parser.errors :=
       [{| Parser.message := Parser.Trailing ERROR;
           Parser.at_line := 1; Parser.at_col := 2 |}] |}.

(** * Properties of the scanner *)

Lemma nth_error_skipn_cons {A} (l : list A) (n : nat) (x : A) :
  nth_error l n = Some x -> skipn n l = x :: skipn (S n) l.
Proof.
  revert l; induction n as [|n IH]; intros [|y l] H; simpl in *; try discriminate.
  - now inversion H.
  - now apply IH.
Qed.

Lemma skipn_incl {A} (l : list A) (n : nat) (x : A) : In x (skipn n l) -> In x l.
Proof.
  revert l; induction n as [|n IH]; intros [|y l] H; simpl in *; auto.
Qed.

Lemma TokenType_eqb_eq a b : TokenType_eqb a b = true <-> a = b.
Proof. destruct a, b; simpl; split; intros H; try reflexivity; discriminate. Qed.

Lemma TokenType_eqb_refl a : TokenType_eqb a a = true.
Proof. now apply TokenType_eqb_eq. Qed.

Lemma TokenType_eqb_neq a b : TokenType_eqb a b = false <-> a <> b.
Proof.
  split.
  - intros H E. apply TokenType_eqb_eq in E. congruence.
  - intros H. destruct (TokenType_eqb a b) eqn:E; [|reflexivity].
    apply TokenType_eqb_eq in E. contradiction.
Qed.

Lemma position_le_refl a : position_le a a.
Proof. right; split; [reflexivity | apply Z.le_refl]. Qed.

Lemma position_le_trans a b c : position_le a b -> position_le b c -> position_le a c.
Proof. unfold position_le; intros; lia. Qed.

Lemma StronglySorted_snoc {A} (R : A -> A -> Prop) (l : list A) (x : A) :
  StronglySorted R l -> Forall (fun y => R y x) l -> StronglySorted R (l ++ [x]).
Proof.
  induction 1 as [|y l Hs IH Hy]; intros Hx; simpl.
  - constructor; constructor.
  - inversion Hx; subst. constructor.
    + now apply IH.
    + apply Forall_app; split; [assumption | now constructor].
Qed.

Section ScannerFacts.

Variable isdigit : char -> bool.
Variable int : str -> option Z.

Local Abbreviation digit_run := (Scanner.digit_run isdigit).
Local Abbreviation step := (Scanner.step isdigit int).
Local Abbreviation loop := (Scanner.loop isdigit int).
Local Abbreviation scan := (Scanner.scan isdigit int).

Lemma digit_run_prefix rest : exists rest', rest = digit_run rest ++ rest'.
Proof.
  induction rest as [|ch rest [rest' IH]]; simpl.
  - now exists [].
  - destruct (isdigit ch).
    + exists rest'. simpl. now rewrite <- IH.
    + now exists (ch :: rest).
Qed.

Lemma digit_run_all rest : forallb isdigit (digit_run rest) = true.
Proof.
  induction rest as [|ch rest IH]; simpl; [reflexivity|].
  destruct (isdigit ch) eqn:E; simpl; [|reflexivity].
  now rewrite E, IH.
Qed.

Lemma digit_run_length rest : (length (digit_run rest) <= length rest)%nat.
Proof.
  destruct (digit_run_prefix rest) as [rest' E].
  rewrite E at 2. rewrite length_app. lia.
Qed.

Lemma step_stepped self :
  (Scanner.pos self < length (Scanner.source self))%nat -> stepped isdigit int self (step self).
Proof.
  intros Hpos. unfold Scanner.step.
  destruct (nth_error (Scanner.source self) (Scanner.pos self)) as [ch|] eqn:Hch.
  2:{ apply nth_error_None in Hch. lia. }
  destruct ((ch =? 32)%N || (ch =? 9)%N); [constructor; lia|].
  destruct (ch =? 10)%N; [constructor; lia|].
  destruct (isdigit ch) eqn:Hd.
  { pose proof (nth_error_skipn_cons _ _ _ Hch) as Hskip.
    set (num_str := digit_run (skipn (Scanner.pos self) (Scanner.source self))).
    assert (Hlen : (1 <= length num_str <= length (Scanner.source self) - Scanner.pos self)%nat).
    { split.
      - subst num_str. rewrite Hskip. simpl. rewrite Hd. simpl. lia.
      - subst num_str. etransitivity; [apply digit_run_length|].
        rewrite length_skipn. lia. }
    assert (Hall : forallb isdigit num_str = true) by apply digit_run_all.
    destruct (int num_str) as [value|] eqn:Hint.
    - destruct (value <? 0) eqn:Hneg.
      + apply (stepped_error isdigit int self (length num_str) (IntValue value)
                 (Scanner.NegativeNumber value)); try lia.
        intros v Hv. inversion Hv; subst v. exists num_str.
        repeat split; try assumption. now apply Z.ltb_lt.
      + apply (stepped_int isdigit int self (length num_str) num_str value); try lia; assumption.
    - apply (stepped_error isdigit int self (length num_str) (StrValue num_str)
               (Scanner.InvalidNumber num_str)); try lia.
      intros v Hv. discriminate. }
  destruct (ch =? 112)%N.
  { destruct ((Scanner.pos self + 2 <? length (Scanner.source self))%nat
              && str_eqb (firstn 3 (skipn (Scanner.pos self) (Scanner.source self)))
                   [112; 111; 119]%N) eqn:Hpow.
    - apply andb_prop in Hpow as [Hpow _]. apply Nat.ltb_lt in Hpow.
      apply (stepped_token isdigit int self 3 POW); try lia; discriminate.
    - apply (stepped_error isdigit int self 1 (StrValue [ch]) (Scanner.UnknownIdentifier ch)); try lia.
      intros v Hv. discriminate. }
  destruct (ch =? 40)%N; [apply (stepped_token isdigit int self 1 LPAREN); try lia; discriminate|].
  destruct (ch =? 41)%N; [apply (stepped_token isdigit int self 1 RPAREN); try lia; discriminate|].
  destruct (ch =? 44)%N; [apply (stepped_token isdigit int self 1 COMMA); try lia; discriminate|].
  destruct (ch =? 43)%N; [apply (stepped_token isdigit int self 1 PLUS); try lia; discriminate|].
  destruct (ch =? 42)%N; [apply (stepped_token isdigit int self 1 MULT); try lia; discriminate|].
  apply (stepped_error isdigit int self 1 (StrValue [ch]) (Scanner.UnknownSymbol ch)); try lia.
  intros v Hv. discriminate.
Qed.

Lemma stepped_source self self' : stepped isdigit int self self' -> Scanner.source self' = Scanner.source self.
Proof. now destruct 1. Qed.

Lemma stepped_pos self self' :
  stepped isdigit int self self' ->
  (Scanner.pos self < Scanner.pos self' <= length (Scanner.source self))%nat.
Proof. destruct 1; simpl; lia. Qed.

(** A property kept by every iteration holds when the loop ends. *)
Lemma loop_invariant (P : Scanner.t -> Prop) :
  (forall self self', P self -> stepped isdigit int self self' -> P self') ->
  forall fuel self self', P self -> loop fuel self = Some self' -> P self'.
Proof.
  intros Hstep. induction fuel as [|fuel IH]; intros self self' HP Hloop; simpl in Hloop.
  - destruct (Scanner.pos self <? length (Scanner.source self))%nat; [discriminate|].
    now inversion Hloop; subst.
  - destruct (Scanner.pos self <? length (Scanner.source self))%nat eqn:Hlt.
    + apply Nat.ltb_lt in Hlt. apply (IH (step self)); [|assumption].
      apply (Hstep self); [assumption | now apply step_stepped].
    + now inversion Hloop; subst.
Qed.

(** The loop ends within [len(source) - pos] iterations, at the end of the
    source. *)
Lemma loop_terminates fuel self :
  (Scanner.pos self <= length (Scanner.source self))%nat ->
  (length (Scanner.source self) - Scanner.pos self <= fuel)%nat ->
  exists self', loop fuel self = Some self'
                /\ Scanner.source self' = Scanner.source self
                /\ Scanner.pos self' = length (Scanner.source self).
Proof.
  revert self. induction fuel as [|fuel IH]; intros self Hle Hfuel; simpl.
  - destruct (Nat.ltb_spec (Scanner.pos self) (length (Scanner.source self))); [lia|].
    exists self. repeat split. lia.
  - destruct (Nat.ltb_spec (Scanner.pos self) (length (Scanner.source self))) as [Hlt|Hge].
    + pose proof (step_stepped self Hlt) as Hs.
      pose proof (stepped_pos _ _ Hs) as Hp. pose proof (stepped_source _ _ Hs) as Hsrc.
      destruct (IH (step self)) as (self' & Hloop & Hsrc' & Hpos'); rewrite ?Hsrc; try lia.
      exists self'. repeat split; [assumption | congruence | congruence].
    + exists self. repeat split. lia.
Qed.

Lemma scan_returns source :
  exists self, loop (length source) (Scanner.init source) = Some self
               /\ Scanner.source self = source
               /\ Scanner.pos self = length source
               /\ scan source
                  = Some (Scanner.append EOF NoneValue (Scanner.line self) (Scanner.col self) self).
Proof.
  destruct (loop_terminates (length source) (Scanner.init source))
    as (self & Hloop & Hsrc & Hpos); simpl; try lia.
  exists self. repeat split; try assumption.
  unfold Scanner.scan. now rewrite Hloop.
Qed.

End ScannerFacts.

Section ScannerInvariants.

Variable isdigit : char -> bool.
Variable int : str -> option Z.

Local Abbreviation step := (Scanner.step isdigit int).
Local Abbreviation loop := (Scanner.loop isdigit int).
Local Abbreviation scan := (Scanner.scan isdigit int).

Lemma Forall_position_le (tokens : list Token.t) (p q : Z * Z) :
  Forall (fun token => position_le (token_position token) p) tokens ->
  position_le p q ->
  Forall (fun token => position_le (token_position token) q) tokens.
Proof.
  intros H Hpq. eapply Forall_impl; [|exact H].
  intros token Ht. simpl in Ht. eapply position_le_trans; eassumption.
Qed.

Lemma ordered_append (self : Scanner.t) (type : TokenType) (value : Value) (n : nat) :
  type <> EOF -> ordered self ->
  ordered (Scanner.forward n
             (Scanner.append type value (Scanner.line self) (Scanner.col self) self)).
Proof.
  intros Hty (Heof & Hsorted & Hbound). unfold ordered; simpl. repeat split.
  - apply Forall_app; split; [assumption|]. constructor; [exact Hty | constructor].
  - apply StronglySorted_snoc; assumption.
  - apply Forall_app; split.
    + eapply Forall_position_le; [exact Hbound|]. right; simpl; lia.
    + constructor; [|constructor]. right; simpl; lia.
Qed.

Lemma ordered_stepped self self' : ordered self -> stepped isdigit int self self' -> ordered self'.
Proof.
  intros Hord Hstep. destruct Hstep.
  - destruct Hord as (Heof & Hsorted & Hbound). repeat split; simpl; try assumption.
    eapply Forall_position_le; [exact Hbound|]. right; simpl; lia.
  - destruct Hord as (Heof & Hsorted & Hbound). repeat split; simpl; try assumption.
    eapply Forall_position_le; [exact Hbound|]. left; simpl; lia.
  - apply ordered_append; [discriminate | assumption].
  - now apply ordered_append.
  - apply (ordered_append (Scanner._add_error message (Scanner.line self) (Scanner.col self) self));
      [discriminate | assumption].
Qed.

Lemma paired_stepped self self' : paired self -> stepped isdigit int self self' -> paired self'.
Proof.
  unfold paired. intros Hp Hstep.
  destruct Hstep as [ | | n num_str value | n type ? ? Heof Herr Hint | n value message];
    simpl; try assumption.
  - rewrite filter_app, app_nil_r. assumption.
  - rewrite filter_app. simpl. unfold is_error at 2. simpl.
    apply TokenType_eqb_neq in Herr. rewrite Herr. now rewrite app_nil_r.
  - rewrite filter_app, !map_app, Hp. reflexivity.
Qed.



End ScannerInvariants.



(** C6. The token list returned by [scan] ends with an [EOF] token, has no
    other [EOF] token, and the positions (line, then column) of its tokens
    never decrease along the list. *)
Theorem scan_ends_with_one_eof (isdigit : char -> bool) (int : str -> option Z) (source : str) :
  exists self front eof,
    Scanner.scan isdigit int source = Some self
    /\ Scanner.tokens self = front ++ [eof]
    /\ Token.type eof = EOF
    /\ Forall (fun token => Token.type token <> EOF) front
    /\ StronglySorted token_le (Scanner.tokens self).
Proof.
  destruct (scan_returns isdigit int source) as (self & Hloop & Hsrc & Hpos & Hscan).
  assert (Hord : ordered self).
  { apply (loop_invariant isdigit int ordered (fun s s' => ordered_stepped isdigit int s s')
             _ _ _) with (2 := Hloop).
    repeat split; simpl; constructor. }
  destruct Hord as (Heof & Hsorted & Hbound).
  eexists. exists (Scanner.tokens self). eexists.
  split; [exact Hscan|]. simpl. repeat split; try assumption.
  apply StronglySorted_snoc; assumption.
Qed.

(** * Properties of the evaluator *)



(** C7. When an operand of [Add], [Mul] or [Pow] evaluates to [None], the
    node returns [None] and records nothing beyond what its operands
    recorded; a node records a diagnostic of its own only when both operand
    values are present and break one of its domain rules, and a literal
    records none. *)
Theorem absent_operand_propagates :
  (forall node l r errors left_val errors1 right_val errors2,
      operands node = Some (l, r) ->
      SemanticAnalyzer.evaluate_node l errors = SemanticAnalyzer.Return left_val errors1 ->
      SemanticAnalyzer.evaluate_node r errors1 = SemanticAnalyzer.Return right_val errors2 ->
      (left_val = NoneValue \/ right_val = NoneValue ->
       SemanticAnalyzer.evaluate_node node errors = SemanticAnalyzer.Return NoneValue errors2)
      /\ (forall value errors3,
             SemanticAnalyzer.evaluate_node node errors = SemanticAnalyzer.Return value errors3 ->
             errors3 = errors2
             \/ (exists message,
                    errors3 = errors2 ++ [message]
                    /\ value = NoneValue
                    /\ left_val <> NoneValue /\ right_val <> NoneValue
                    /\ domain_violation node left_val right_val message)))
  /\ (forall value errors,
         SemanticAnalyzer.evaluate_node (IntLiteral value) errors
         = SemanticAnalyzer.Return value errors).
Proof.
  split; [|reflexivity].
  intros node l r errors left_val errors1 right_val errors2 Hnode Hl Hr.
  destruct node as [v|l' r'|l' r'|l' r']; simpl in Hnode; [discriminate| | |];
    inversion Hnode; subst l' r'; cbn [SemanticAnalyzer.evaluate_node]; rewrite Hl, Hr.
  - split.
    + intros [->| ->]; [reflexivity | now destruct left_val].
    + intros value errors3 H.
      destruct left_val as [|a|s], right_val as [|b|s']; try discriminate;
        try (inversion H; subst; now left).
      destruct (Z.ltb_spec (a + b) 0); inversion H; subst; [right | now left].
      eexists; repeat split; try discriminate. simpl. eauto.
  - split.
    + intros [->| ->]; [reflexivity | now destruct left_val].
    + intros value errors3 H.
      destruct left_val as [|a|s], right_val as [|b|s']; try discriminate;
        try (inversion H; subst; now left).
      destruct (Z.ltb_spec (a * b) 0); inversion H; subst; [right | now left].
      eexists; repeat split; try discriminate. simpl. eauto.
  - split.
    + intros [->| ->]; [reflexivity | now destruct left_val].
    + intros value errors3 H.
      destruct left_val as [|a|s], right_val as [|b|s']; try discriminate;
        try (inversion H; subst; now left).
      * destruct (Z.ltb_spec a 0) as [Ha|Ha].
        { inversion H; subst. right. eexists; repeat split; try discriminate.
          simpl. left. split; [assumption | reflexivity]. }
        destruct (Z.ltb_spec b 0) as [Hb|Hb].
        { inversion H; subst. right. eexists; repeat split; try discriminate.
          simpl. right. exists b. repeat split; try assumption. left. now split. }
        destruct (Z.gtb_spec b 1000) as [Hc|Hc].
        { inversion H; subst. right. eexists; repeat split; try discriminate.
          simpl. right. exists b. repeat split; try assumption. right; left. now split. }
        destruct (Z.ltb_spec (a ^ b) 0) as [Hd|Hd]; inversion H; subst; [right | now left].
        eexists; repeat split; try discriminate.
        simpl. right. exists b. repeat split; try assumption. right; right. repeat split; lia.
      * destruct (Z.ltb_spec a 0) as [Ha|Ha]; [|discriminate].
        inversion H; subst. right. eexists; repeat split; try discriminate.
        simpl. left. split; [assumption | reflexivity].
Qed.

Lemma absent_operand_propagates_witness :
  SemanticAnalyzer.evaluate_node (Add (Pow (lit 2) (lit 1001)) (lit 5)) []
  = SemanticAnalyzer.Return NoneValue [SemanticAnalyzer.ExponentTooLarge 1001]
  /\ ([SemanticAnalyzer.ExponentTooLarge 1001] = []
      \/ exists message,
           [SemanticAnalyzer.ExponentTooLarge 1001] = [] ++ [message]
           /\ NoneValue = NoneValue
           /\ IntValue 2 <> NoneValue /\ IntValue 1001 <> NoneValue
           /\ domain_violation (Pow (lit 2) (lit 1001)) (IntValue 2) (IntValue 1001) message).
Proof.
  split.
  - apply (proj1 (proj1 absent_operand_propagates
                    (Add (Pow (lit 2) (lit 1001)) (lit 5)) (Pow (lit 2) (lit 1001)) (lit 5)
                    [] NoneValue [SemanticAnalyzer.ExponentTooLarge 1001]
                    (IntValue 5) [SemanticAnalyzer.ExponentTooLarge 1001]
                    eq_refl eq_refl eq_refl)).
    left; reflexivity.
  - apply (proj2 (proj1 absent_operand_propagates
                    (Pow (lit 2) (lit 1001)) (lit 2) (lit 1001)
                    [] (IntValue 2) [] (IntValue 1001) []
                    eq_refl eq_refl eq_refl) NoneValue).
    reflexivity.
Defined.

(** C9. [pow(0, 0)] evaluates to 1 and records no diagnostic. *)
Theorem pow_zero_zero :
  SemanticAnalyzer.evaluate (Some (Pow (IntLiteral (IntValue 0)) (IntLiteral (IntValue 0))))
  = SemanticAnalyzer.Return (IntValue 1) [].
Proof. reflexivity. Qed.

(** * The stages in sequence on ASCII text *)

Section ScannerBuiltins.

Variables isdigit isdigit' : char -> bool.
Variables int int' : str -> option Z.

Lemma digit_run_ext (rest : str) :
  (forall ch, In ch rest -> isdigit ch = isdigit' ch) ->
  Scanner.digit_run isdigit rest = Scanner.digit_run isdigit' rest.
Proof.
  induction rest as [|ch rest IH]; intros H; simpl; [reflexivity|].
  rewrite <- (H ch (or_introl eq_refl)).
  destruct (isdigit ch); [|reflexivity].
  f_equal. apply IH. intros c Hc. apply H. now right.
Qed.

(** The scanner calls the builtins on the characters of its source and on
    the runs of digits in it, and nowhere else. *)
Lemma step_ext (self : Scanner.t) :
  (forall ch, In ch (Scanner.source self) -> isdigit ch = isdigit' ch) ->
  (forall num_str,
      num_str <> [] -> forallb isdigit' num_str = true ->
      (length num_str <= length (Scanner.source self))%nat ->
      int num_str = int' num_str) ->
  Scanner.step isdigit int self = Scanner.step isdigit' int' self.
Proof.
  intros Hd Hi. unfold Scanner.step.
  destruct (nth_error (Scanner.source self) (Scanner.pos self)) as [ch|] eqn:Hch;
    [|reflexivity].
  rewrite (Hd ch (nth_error_In _ _ Hch)).
  rewrite (digit_run_ext (skipn (Scanner.pos self) (Scanner.source self))).
  2:{ intros c Hc. apply Hd. eapply skipn_incl; eassumption. }
  destruct ((ch =? 32)%N || (ch =? 9)%N); [reflexivity|].
  destruct (ch =? 10)%N; [reflexivity|].
  destruct (isdigit' ch) eqn:Hdig; [|reflexivity].
  rewrite Hi; [reflexivity | | | ].
  - rewrite (nth_error_skipn_cons _ _ _ Hch). simpl. rewrite Hdig. discriminate.
  - apply digit_run_all.
  - etransitivity; [apply digit_run_length|]. rewrite length_skipn. lia.
Qed.

Lemma loop_ext (fuel : nat) (self : Scanner.t) :
  (forall ch, In ch (Scanner.source self) -> isdigit ch = isdigit' ch) ->
  (forall num_str,
      num_str <> [] -> forallb isdigit' num_str = true ->
      (length num_str <= length (Scanner.source self))%nat ->
      int num_str = int' num_str) ->
  Scanner.loop isdigit int fuel self = Scanner.loop isdigit' int' fuel self.
Proof.
  revert self. induction fuel as [|fuel IH]; intros self Hd Hi; simpl; [reflexivity|].
  destruct (Nat.ltb_spec (Scanner.pos self) (length (Scanner.source self))) as [Hlt|];
    [|reflexivity].
  rewrite (step_ext self Hd Hi).
  pose proof (stepped_source _ _ _ _ (step_stepped isdigit' int' self Hlt)) as Hsrc.
  apply IH; rewrite Hsrc; assumption.
Qed.

Lemma scan_ext (source : str) :
  (forall ch, In ch source -> isdigit ch = isdigit' ch) ->
  (forall num_str,
      num_str <> [] -> forallb isdigit' num_str = true ->
      (length num_str <= length source)%nat ->
      int num_str = int' num_str) ->
  Scanner.scan isdigit int source = Scanner.scan isdigit' int' source.
Proof.
  intros Hd Hi. unfold Scanner.scan. now rewrite (loop_ext _ (Scanner.init source) Hd Hi).
Qed.

End ScannerBuiltins.

Lemma ascii_builtins_ascii : ascii_builtins ascii_isdigit ascii_int.
Proof.
  split; [reflexivity|].
  intros num_str Hne Hall _. unfold ascii_int. rewrite Hall.
  destruct num_str; [contradiction | reflexivity].
Qed.

Lemma scan_ascii (isdigit : char -> bool) (int : str -> option Z) (source : str) :
  ascii_builtins isdigit int ->
  forallb (fun ch => (ch <? 128)%N) source = true ->
  (length source <=? 640)%nat = true ->
  Scanner.scan isdigit int source = Scanner.scan ascii_isdigit ascii_int source.
Proof.
  intros [Hd Hi] Hascii Hlen. apply Nat.leb_le in Hlen. apply scan_ext.
  - intros ch Hch. apply Hd. rewrite forallb_forall in Hascii.
    apply N.ltb_lt. now apply Hascii.
  - intros num_str Hne Hall Hle.
    rewrite (Hi num_str Hne Hall) by lia.
    symmetry. apply (proj2 ascii_builtins_ascii num_str Hne Hall). lia.
Qed.

(** C1. On the end-to-end scenarios, scanning, parsing and evaluating the
    input text yields the stated value, and none of the three stages records
    a diagnostic. *)
Theorem end_to_end_scenarios (isdigit : char -> bool) (int : str -> option Z) :
  ascii_builtins isdigit int ->
  translate isdigit int (text "7") = Some (clean 7)
  /\ translate isdigit int (text "4+5*6") = Some (clean 34)
  /\ translate isdigit int (text "pow(10,2)") = Some (clean 100)
  /\ (translate isdigit int (text "2+3*4") = Some (clean 14)
      /\ translate isdigit int (text "2+3*4") <> Some (clean 20))
  /\ translate isdigit int (text "2*3+4*5") = Some (clean 26)
  /\ translate isdigit int (text "pow(2,3)*4") = Some (clean 32)
  /\ translate isdigit int (text "pow(2,pow(3,4))") = Some (clean (2 ^ 81)).
Proof.
  intros H.
  assert (run : forall source expected,
             forallb (fun ch => (ch <? 128)%N) source = true ->
             (length source <=? 640)%nat = true ->
             translate ascii_isdigit ascii_int source = Some (clean expected) ->
             translate isdigit int source = Some (clean expected)).
  { intros source expected Hascii Hlen Hrun. unfold translate.
    rewrite (scan_ascii isdigit int source H Hascii Hlen). exact Hrun. }
  repeat split; try (apply run; vm_compute; reflexivity).
  rewrite (run (text "2+3*4") 14) by (vm_compute; reflexivity). discriminate.
Qed.

Lemma end_to_end_scenarios_witness :
  translate ascii_isdigit ascii_int (text "7") = Some (clean 7)
  /\ translate ascii_isdigit ascii_int (text "4+5*6") = Some (clean 34)
  /\ translate ascii_isdigit ascii_int (text "pow(10,2)") = Some (clean 100)
  /\ (translate ascii_isdigit ascii_int (text "2+3*4") = Some (clean 14)
      /\ translate ascii_isdigit ascii_int (text "2+3*4") <> Some (clean 20))
  /\ translate ascii_isdigit ascii_int (text "2*3+4*5") = Some (clean 26)
  /\ translate ascii_isdigit ascii_int (text "pow(2,3)*4") = Some (clean 32)
  /\ translate ascii_isdigit ascii_int (text "pow(2,pow(3,4))") = Some (clean (2 ^ 81)).
Proof.
  apply (end_to_end_scenarios ascii_isdigit ascii_int). exact ascii_builtins_ascii.
Defined.

(** * Properties of the parser *)

Lemma wlp_ret {A} (a : A) self (Q : A -> Parser.t -> Prop) :
  Q a self -> wlp (Parser.ret a) self Q.
Proof. intros H b self' E. inversion E; subst. exact H. Qed.

Lemma wlp_bind {A B} (m : Parser.M A) (k : A -> Parser.M B) self (Q : B -> Parser.t -> Prop) :
  wlp m self (fun a self' => wlp (k a) self' Q) -> wlp (Parser.bind m k) self Q.
Proof.
  intros H b self'' E. unfold Parser.bind in E.
  destruct (m self) as [a self'| |] eqn:Em; try discriminate.
  exact (H a self' Em b self'' E).
Qed.

Lemma wlp_conseq {A} (m : Parser.M A) self (P Q : A -> Parser.t -> Prop) :
  wlp m self P -> (forall a self', P a self' -> Q a self') -> wlp m self Q.
Proof. intros H HPQ a self' E. apply HPQ, H, E. Qed.

Lemma wlp_current self (Q : Token.t -> Parser.t -> Prop) :
  (forall token, Parser.current_token self = Some token -> Q token self) ->
  wlp Parser.current self Q.
Proof.
  intros H token self' E. unfold Parser.current in E.
  destruct (Parser.current_token self) as [cur|] eqn:Ec; inversion E; subst.
  now apply H.
Qed.

Lemma wlp_add_error message line col self (Q : unit -> Parser.t -> Prop) :
  Q tt (with_error self {| Parser.message := message; Parser.at_line := line;
                           Parser.at_col := col |}) ->
  wlp (Parser._add_error message line col) self Q.
Proof. intros H u self' E. inversion E; subst. exact H. Qed.

Lemma moved_refl self : moved self self.
Proof. repeat split; auto. Qed.

Lemma moved_trans a b c : moved a b -> moved b c -> moved a c.
Proof. intros (? & ? & ?) (? & ? & ?). repeat split; try congruence. auto. Qed.

Lemma wlp_advance self (Q : option Token.t -> Parser.t -> Prop) :
  (forall r self', moved self self' -> Q r self') -> wlp Parser._advance self Q.
Proof.
  intros H r self' E. apply H. unfold Parser._advance in E.
  destruct (Parser.pos self <? length (Parser.tokens self))%nat.
  - destruct (nth_error (Parser.tokens self) (Parser.pos self)) as [token|] eqn:En;
      inversion E; subst. repeat split.
    intros _ token' Ht. simpl in *. inversion Ht; subst. eapply nth_error_In; eassumption.
  - inversion E; subst. apply moved_refl.
Qed.

Lemma wlp_match expected self (Q : option Token.t -> Parser.t -> Prop) :
  (forall token self',
      Parser.current_token self = Some token -> Token.type token = expected ->
      moved self self' -> Q (Some token) self') ->
  (forall token,
      Parser.current_token self = Some token -> Token.type token <> expected ->
      Q None (with_error self (report token (Parser.Expected expected (Token.type token))))) ->
  wlp (Parser._match expected) self Q.
Proof.
  intros Hok Hfail. unfold Parser._match.
  apply wlp_bind, wlp_current. intros cur Hcur.
  destruct (TokenType_eqb (Token.type cur) expected) eqn:Hty.
  - apply TokenType_eqb_eq in Hty.
    apply wlp_bind, wlp_current. intros token Htoken.
    apply wlp_bind, wlp_advance. intros r self' Hmoved. apply wlp_ret.
    assert (token = cur) by congruence. subst token. now apply Hok.
  - apply TokenType_eqb_neq in Hty.
    apply wlp_bind, wlp_current. intros token Htoken.
    assert (token = cur) by congruence. subst token.
    apply wlp_bind, wlp_add_error, wlp_ret. now apply Hfail.
Qed.

Lemma wlp_sum_tail self (Q : option TokenType -> Parser.t -> Prop) :
  (forall self', moved self self' -> Q (Some PLUS) self') ->
  Q None self ->
  wlp Parser.parse_sum_tail self Q.
Proof.
  intros Hsome Hnone. unfold Parser.parse_sum_tail.
  apply wlp_bind, wlp_current. intros cur Hcur.
  destruct (TokenType_eqb (Token.type cur) PLUS) eqn:Hty; [|now apply wlp_ret].
  apply TokenType_eqb_eq in Hty.
  apply wlp_bind, wlp_match.
  - intros token self' _ _ Hmoved. apply wlp_ret. now apply Hsome.
  - intros token Htoken Hne. congruence.
Qed.

Lemma wlp_prod_tail self (Q : option TokenType -> Parser.t -> Prop) :
  (forall self', moved self self' -> Q (Some MULT) self') ->
  Q None self ->
  wlp Parser.parse_prod_tail self Q.
Proof.
  intros Hsome Hnone. unfold Parser.parse_prod_tail.
  apply wlp_bind, wlp_current. intros cur Hcur.
  destruct (TokenType_eqb (Token.type cur) MULT) eqn:Hty; [|now apply wlp_ret].
  apply TokenType_eqb_eq in Hty.
  apply wlp_bind, wlp_match.
  - intros token self' _ _ Hmoved. apply wlp_ret. now apply Hsome.
  - intros token Htoken Hne. congruence.
Qed.

Lemma outcome_some (Q : list Token.t -> AST -> Prop) self self' ast :
  linked self -> moved self self' -> Q (Parser.tokens self) ast ->
  outcome Q self (Some ast) self'.
Proof. intros Hl (Ht & He & Hl') HQ. split; [|split; [|split]]; auto. Qed.

Lemma outcome_moved (Q Q' : list Token.t -> AST -> Prop) self s r self' :
  linked self -> moved self s ->
  (forall ast, Q (Parser.tokens self) ast -> Q' (Parser.tokens self) ast) ->
  outcome Q s r self' -> outcome Q' self r self'.
Proof.
  intros Hl (Ht & He & Hl') HQ (Ht' & Hl'' & Hr).
  split; [congruence|]. split; [assumption|].
  destruct r as [ast|].
  - destruct Hr as [He' Hast]. split; [congruence|]. apply HQ. now rewrite <- Ht.
  - destruct Hr as (token & reports & Hc & He' & Hf). exists token, reports.
    repeat split; try assumption. congruence.
Qed.

Lemma outcome_None_moved (Q Q' : list Token.t -> AST -> Prop) self s self' :
  linked self -> moved self s -> outcome Q s None self' -> outcome Q' self None self'.
Proof.
  intros Hl (Ht & He & Hl') (Ht' & Hl'' & token & reports & Hc & He' & Hf).
  split; [congruence|]. split; [assumption|].
  exists token, reports. repeat split; try assumption. congruence.
Qed.

Lemma outcome_Some_moved (Q : list Token.t -> AST -> Prop) self ast self' :
  outcome Q self (Some ast) self' -> moved self self' /\ Q (Parser.tokens self) ast.
Proof. intros (Ht & Hl & He & HQ). split; [split; [|split]|]; auto. Qed.

Lemma outcome_fail (Q : list Token.t -> AST -> Prop) self s token reports :
  linked self -> moved self s ->
  Parser.current_token s = Some token ->
  failure_reports token reports ->
  outcome Q self None (fold_left with_error reports s).
Proof.
  intros Hl (Ht & He & Hl') Hc Hf.
  assert (Hfold : forall es s0,
             Parser.tokens (fold_left with_error es s0) = Parser.tokens s0
             /\ Parser.current_token (fold_left with_error es s0) = Parser.current_token s0
             /\ Parser.errors (fold_left with_error es s0) = Parser.errors s0 ++ es).
  { induction es as [|e es IH]; intros s0; simpl.
    - now rewrite app_nil_r.
    - destruct (IH (with_error s0 e)) as (-> & -> & ->). simpl.
      now rewrite <- app_assoc. }
  destruct (Hfold reports s) as (Ht' & Hc' & He').
  split; [congruence|]. split.
  - intros token' Htoken'. rewrite Ht'. apply Hl'; [assumption | congruence].
  - exists token, reports. repeat split; try assumption; congruence.
Qed.

Lemma from_tokens_app tokens (mk : AST -> AST -> AST) l r :
  literals (mk l r) = literals l ++ literals r ->
  from_tokens tokens l -> from_tokens tokens r -> from_tokens tokens (mk l r).
Proof.
  intros E Hl Hr value Hin. rewrite E in Hin.
  apply in_app_or in Hin as [Hin|Hin]; auto.
Qed.

Section Soundness.

Variable parse_expr : Parser.M (option AST).
Variable fuel : nat.
Hypothesis parse_expr_sound : sound sum_ok parse_expr.

Lemma parse_atom_sound : sound atom_ok (Parser.parse_atom parse_expr).
Proof.
  intros self Hl. unfold Parser.parse_atom.
  apply wlp_bind, wlp_current. intros cur Hcur.
  destruct (TokenType_eqb (Token.type cur) INT) eqn:Hint.
  { apply TokenType_eqb_eq in Hint. apply wlp_bind, wlp_match.
    - intros token s1 Htoken Hty Hm1. apply wlp_ret.
      apply outcome_some; try assumption. repeat split.
      intros value [<-|[]]. exists token. repeat split; auto.
    - intros token Htoken Hne. congruence. }
  destruct (TokenType_eqb (Token.type cur) POW) eqn:Hpow.
  { apply TokenType_eqb_eq in Hpow. apply wlp_bind, wlp_match.
    2:{ intros token Htoken Hne. congruence. }
    intros pow_token s1 _ _ Hm1. apply wlp_bind, wlp_match.
    2:{ intros token Htoken Hne. apply wlp_ret.
        apply (outcome_fail atom_ok self s1 token
                 [report token (Parser.Expected LPAREN (Token.type token))]);
          try assumption. left. now split. }
    intros lparen s2 _ _ Hm2.
    pose proof (moved_trans _ _ _ Hm1 Hm2) as Hm.
    assert (Hl2 : linked s2) by now apply Hm.
    apply wlp_bind. eapply wlp_conseq; [apply parse_expr_sound, Hl2|].
    intros [arg1|] s3 Ho3.
    2:{ apply wlp_ret. apply (outcome_None_moved sum_ok atom_ok self s2 s3 Hl Hm Ho3). }
    destruct (outcome_Some_moved _ _ _ _ Ho3) as [Hm3 Harg1].
    pose proof (moved_trans _ _ _ Hm Hm3) as Hm'.
    assert (Hl3 : linked s3) by now apply Hm'.
    apply wlp_bind, wlp_match.
    2:{ intros token Htoken Hne.
        apply wlp_bind, wlp_current. intros got Hgot.
        apply wlp_bind, wlp_add_error, wlp_ret.
        simpl in Hgot. assert (got = token) by congruence. subst got.
        apply (outcome_fail atom_ok self s3 token
                 [report token (Parser.Expected COMMA (Token.type token));
                  report token Parser.ExpectedComma]); try assumption.
        right; left. now split. }
    intros comma s4 _ _ Hm4.
    pose proof (moved_trans _ _ _ Hm' Hm4) as Hm''.
    assert (Hl4 : linked s4) by now apply Hm''.
    apply wlp_bind. eapply wlp_conseq; [apply parse_expr_sound, Hl4|].
    intros [arg2|] s5 Ho5.
    2:{ apply wlp_ret. apply (outcome_None_moved sum_ok atom_ok self s4 s5 Hl Hm'' Ho5). }
    destruct (outcome_Some_moved _ _ _ _ Ho5) as [Hm5 Harg2].
    pose proof (moved_trans _ _ _ Hm'' Hm5) as Hm5'.
    assert (Hl5 : linked s5) by now apply Hm5'.
    apply wlp_bind, wlp_match.
    2:{ intros token Htoken Hne.
        apply wlp_bind, wlp_current. intros got Hgot.
        apply wlp_bind, wlp_add_error, wlp_ret.
        simpl in Hgot. assert (got = token) by congruence. subst got.
        apply (outcome_fail atom_ok self s5 token
                 [report token (Parser.Expected RPAREN (Token.type token));
                  report token Parser.ExpectedRParen]); try assumption.
        right; right; left. now split. }
    intros rparen s6 _ _ Hm6. apply wlp_ret.
    apply outcome_some; [assumption | eapply moved_trans; eassumption |].
    destruct Hm as (Ht2 & _), Hm'' as (Ht4 & _).
    rewrite Ht2 in Harg1. rewrite Ht4 in Harg2.
    destruct Harg1 as [Ha1 Hf1], Harg2 as [Ha2 Hf2].
    repeat split.
    - simpl. now rewrite Ha1, Ha2.
    - now apply (from_tokens_app _ Pow). }
  apply TokenType_eqb_neq in Hint, Hpow.
  apply wlp_bind, wlp_current. intros got Hgot.
  assert (got = cur) by congruence. subst got.
  apply wlp_bind, wlp_add_error, wlp_ret.
  apply (outcome_fail atom_ok self self cur
           [report cur (Parser.ExpectedAtom (Token.type cur))]);
    try assumption; [apply moved_refl|].
  right; right; right. now repeat split.
Qed.

Lemma prod_while_sound n node prod_tail_node self :
  linked self -> prod_ok (Parser.tokens self) node ->
  wlp (Parser.prod_while parse_expr n node prod_tail_node) self (outcome prod_ok self).
Proof.
  revert node prod_tail_node self.
  induction n as [|n IH]; intros node [op|] self Hl Hnode; simpl;
    try (apply wlp_ret, outcome_some; [assumption | apply moved_refl | assumption]).
  - intros r self' E. discriminate.
  - destruct (TokenType_eqb op MULT);
      [|apply wlp_ret, outcome_some; [assumption | apply moved_refl | assumption]].
    apply wlp_bind. eapply wlp_conseq; [apply parse_atom_sound, Hl|].
    intros [right'|] s1 Ho1.
    2:{ apply wlp_ret. apply (outcome_None_moved atom_ok prod_ok self self s1 Hl (moved_refl self) Ho1). }
    destruct (outcome_Some_moved _ _ _ _ Ho1) as [Hm1 (Hr1 & Hr2 & Hr3)].
    assert (Hl1 : linked s1) by now apply Hm1.
    destruct Hnode as (Hn1 & Hn2 & Hn3).
    assert (Hnext : prod_ok (Parser.tokens self) (Mul node right')).
    { repeat split.
      - simpl. now rewrite Hn1, Hr1, Hn2, Hr2.
      - now apply (from_tokens_app _ Mul). }
    apply wlp_bind, wlp_prod_tail.
    + intros s2 Hm2. pose proof (moved_trans _ _ _ Hm1 Hm2) as Hm.
      assert (Hl2 : linked s2) by now apply Hm.
      eapply wlp_conseq; [apply (IH _ _ s2 Hl2)|].
      * destruct Hm as (-> & _). exact Hnext.
      * intros r self' Ho. eapply outcome_moved with (4 := Ho); try eassumption. auto.
    + eapply wlp_conseq; [apply (IH _ _ s1 Hl1)|].
      * destruct Hm1 as (-> & _). exact Hnext.
      * intros r self' Ho. eapply outcome_moved with (4 := Ho); try eassumption. auto.
Qed.

Lemma parse_prod_sound : sound prod_ok (Parser.parse_prod parse_expr fuel).
Proof.
  intros self Hl. unfold Parser.parse_prod.
  apply wlp_bind. eapply wlp_conseq; [apply parse_atom_sound, Hl|].
  intros [node|] s1 Ho1.
  2:{ apply wlp_ret. apply (outcome_None_moved atom_ok prod_ok self self s1 Hl (moved_refl self) Ho1). }
  destruct (outcome_Some_moved _ _ _ _ Ho1) as [Hm1 (Hr1 & Hr2 & Hr3)].
  assert (Hl1 : linked s1) by now apply Hm1.
  assert (Hnode : prod_ok (Parser.tokens self) node).
  { repeat split; try assumption. now destruct node. }
  apply wlp_bind, wlp_prod_tail.
  - intros s2 Hm2. pose proof (moved_trans _ _ _ Hm1 Hm2) as Hm.
    assert (Hl2 : linked s2) by now apply Hm.
    eapply wlp_conseq; [apply (prod_while_sound _ _ _ s2 Hl2)|].
    + destruct Hm as (-> & _). exact Hnode.
    + intros r self' Ho. eapply outcome_moved with (4 := Ho); try eassumption. auto.
  - apply wlp_ret. now apply outcome_some.
Qed.

Lemma sum_while_sound n node sum_tail_node self :
  linked self -> sum_ok (Parser.tokens self) node ->
  wlp (Parser.sum_while parse_expr fuel n node sum_tail_node) self (outcome sum_ok self).
Proof.
  revert node sum_tail_node self.
  induction n as [|n IH]; intros node [op|] self Hl Hnode; simpl;
    try (apply wlp_ret, outcome_some; [assumption | apply moved_refl | assumption]).
  - intros r self' E. discriminate.
  - destruct (TokenType_eqb op PLUS);
      [|apply wlp_ret, outcome_some; [assumption | apply moved_refl | assumption]].
    apply wlp_bind. eapply wlp_conseq; [apply parse_prod_sound, Hl|].
    intros [right'|] s1 Ho1.
    2:{ apply wlp_ret. apply (outcome_None_moved prod_ok sum_ok self self s1 Hl (moved_refl self) Ho1). }
    destruct (outcome_Some_moved _ _ _ _ Ho1) as [Hm1 (Hr1 & Hr2 & Hr3)].
    assert (Hl1 : linked s1) by now apply Hm1.
    destruct Hnode as (Hn1 & Hn3).
    assert (Hnext : sum_ok (Parser.tokens self) (Add node right')).
    { repeat split.
      - simpl. now rewrite Hn1, Hr1, Hr2.
      - now apply (from_tokens_app _ Add). }
    apply wlp_bind, wlp_sum_tail.
    + intros s2 Hm2. pose proof (moved_trans _ _ _ Hm1 Hm2) as Hm.
      assert (Hl2 : linked s2) by now apply Hm.
      eapply wlp_conseq; [apply (IH _ _ s2 Hl2)|].
      * destruct Hm as (-> & _). exact Hnext.
      * intros r self' Ho. eapply outcome_moved with (4 := Ho); try eassumption. auto.
    + eapply wlp_conseq; [apply (IH _ _ s1 Hl1)|].
      * destruct Hm1 as (-> & _). exact Hnext.
      * intros r self' Ho. eapply outcome_moved with (4 := Ho); try eassumption. auto.
Qed.

Lemma parse_sum_sound : sound sum_ok (Parser.parse_sum parse_expr fuel).
Proof.
  intros self Hl. unfold Parser.parse_sum.
  apply wlp_bind. eapply wlp_conseq; [apply parse_prod_sound, Hl|].
  intros [node|] s1 Ho1.
  2:{ apply wlp_ret. apply (outcome_None_moved prod_ok sum_ok self self s1 Hl (moved_refl self) Ho1). }
  destruct (outcome_Some_moved _ _ _ _ Ho1) as [Hm1 (Hr1 & Hr2 & Hr3)].
  assert (Hl1 : linked s1) by now apply Hm1.
  assert (Hnode : sum_ok (Parser.tokens self) node) by now split.
  apply wlp_bind, wlp_sum_tail.
  - intros s2 Hm2. pose proof (moved_trans _ _ _ Hm1 Hm2) as Hm.
    assert (Hl2 : linked s2) by now apply Hm.
    eapply wlp_conseq; [apply (sum_while_sound _ _ _ s2 Hl2)|].
    + destruct Hm as (-> & _). exact Hnode.
    + intros r self' Ho. eapply outcome_moved with (4 := Ho); try eassumption. auto.
  - apply wlp_ret. now apply outcome_some.
Qed.

End Soundness.

Lemma parse_expr_sound fuel : sound sum_ok (Parser.parse_expr fuel).
Proof.
  induction fuel as [|fuel IH]; simpl.
  - intros self _ r self' E. discriminate.
  - now apply parse_sum_sound.
Qed.

(** What [Parser(tokens).parse()] returns and records. *)
Lemma run_outcome (fuel : nat) (tokens : list Token.t) (ast : option AST)
  (self : Parser.t) :
  Parser.run_with fuel tokens = Parser.Return ast self ->
  Parser.tokens self = tokens
  /\ exists token,
       Parser.current_token self = Some token
       /\ In token tokens
       /\ match ast with
          | Some tree =>
            sum_ok tokens tree /\ Parser.errors self = trailing_reports token
          | None =>
            exists reports,
              failure_reports token reports
              /\ Parser.errors self = reports ++ trailing_reports token
          end.
Proof.
  unfold Parser.run_with, Parser.init.
  set (new := {| Parser.tokens := tokens; Parser.pos := 0;
                 Parser.current_token := None; Parser.errors := [] |}).
  destruct (Parser._advance new) as [first s0| |] eqn:Einit; try discriminate.
  assert (Hm0 : moved new s0).
  { apply (wlp_advance new (fun _ s => moved new s)) with (2 := Einit). auto. }
  destruct Hm0 as (Ht0 & He0 & Hl0).
  assert (Hl : linked s0) by (apply Hl0; intros token Htoken; discriminate).
  simpl in Ht0, He0.
  revert ast self. change (wlp (Parser.parse fuel) s0
    (fun ast self =>
       Parser.tokens self = tokens
       /\ exists token,
            Parser.current_token self = Some token
            /\ In token tokens
            /\ match ast with
               | Some tree =>
                 sum_ok tokens tree /\ Parser.errors self = trailing_reports token
               | None =>
                 exists reports,
                   failure_reports token reports
                   /\ Parser.errors self = reports ++ trailing_reports token
               end)).
  unfold Parser.parse.
  apply wlp_bind. eapply wlp_conseq; [apply parse_expr_sound, Hl|].
  intros ast s1 (Ht1 & Hl1 & Hast).
  apply wlp_bind, wlp_current. intros cur Hcur.
  assert (Hin : In cur tokens).
  { rewrite <- Ht0, <- Ht1. now apply Hl1. }
  assert (Hresult : match ast with
                    | Some tree => sum_ok tokens tree /\ Parser.errors s1 = []
                    | None => exists reports,
                                failure_reports cur reports /\ Parser.errors s1 = reports
                    end).
  { destruct ast as [tree|].
    - destruct Hast as [He1 Htree]. rewrite Ht0 in Htree. split; congruence.
    - destruct Hast as (token & reports & Hc & He1 & Hf).
      assert (token = cur) by congruence. subst token.
      exists reports. split; [assumption|]. rewrite He1, He0. reflexivity. }
  destruct (TokenType_eqb (Token.type cur) EOF) eqn:Heof; cbn [negb].
  - apply wlp_bind, wlp_ret, wlp_ret. split; [congruence|].
    exists cur. repeat split; try assumption.
    unfold trailing_reports. rewrite Heof.
    destruct ast as [tree|].
    + exact Hresult.
    + destruct Hresult as (reports & Hf & He). exists reports. now rewrite app_nil_r.
  - apply wlp_bind, wlp_bind, wlp_current. intros got Hgot.
    assert (got = cur) by congruence. subst got.
    apply wlp_add_error, wlp_ret. split; [simpl; congruence|].
    exists cur. repeat split; try assumption.
    unfold trailing_reports. rewrite Heof.
    destruct ast as [tree|]; simpl.
    + destruct Hresult as [Htree He]. split; [assumption|]. now rewrite He.
    + destruct Hresult as (reports & Hf & He). exists reports. now rewrite He.
Qed.

Lemma missing_comma_run : Parser.run missing_comma = Parser.Return None missing_comma_parser.
Proof. reflexivity. Qed.

(** C4, as stated, fails: on [pow(1 2)] the parse fails at the second
    literal and records three diagnostics there, not one. *)
Lemma single_diagnostic_counterexample :
  Parser.run missing_comma = Parser.Return None missing_comma_parser
  /\ length (Parser.errors missing_comma_parser) = 3%nat
  /\ length (Parser.errors missing_comma_parser) <> 1%nat.
Proof.
  split; [exact missing_comma_run|]. split; [reflexivity | discriminate].
Qed.

(** C4, amended. When the parse fails, it has halted at the first unmet
    expectation with the offending token still current; it has recorded at
    least one and at most three diagnostics, all of them at that token, and
    the first one reports the unmet expectation. A parse that returns no
    tree always records a diagnostic. *)
Theorem parse_failure_diagnostics (fuel : nat) (tokens : list Token.t)
  (ast : option AST) (self : Parser.t) :
  Parser.run_with fuel tokens = Parser.Return ast self ->
  (ast = None -> Parser.errors self <> [])
  /\ (Parser.errors self <> [] ->
      exists token first rest,
        Parser.current_token self = Some token
        /\ Parser.errors self = first :: rest
        /\ unmet_expectation token ast (Parser.message first)
        /\ Forall (located token) (Parser.errors self)
        /\ (length (Parser.errors self) <= 3)%nat).
Proof.
  intros Hrun. destruct (run_outcome fuel tokens ast self Hrun) as (_ & token & Hc & _ & Hast).
  assert (Htrail : Forall (located token) (trailing_reports token)
                   /\ (length (trailing_reports token) <= 1)%nat).
  { unfold trailing_reports. destruct (TokenType_eqb (Token.type token) EOF); simpl.
    - split; [constructor | lia].
    - split; [repeat constructor | lia]. }
  destruct Htrail as [Hloc Hlen].
  destruct ast as [tree|].
  - destruct Hast as [_ He]. split; [discriminate|]. intros Hne.
    unfold trailing_reports in *.
    destruct (TokenType_eqb (Token.type token) EOF) eqn:Heof; [congruence|].
    apply TokenType_eqb_neq in Heof.
    exists token. do 2 eexists. split; [assumption|]. split; [exact He|].
    rewrite He. split; [|split; [assumption | simpl; lia]].
    right; right. repeat split; [discriminate | assumption].
  - destruct Hast as (reports & Hf & He). split.
    + intros _. rewrite He.
      destruct Hf as [[_ ->]|[[_ ->]|[[_ ->]|(_ & _ & ->)]]]; discriminate.
    + intros _. exists token.
      assert (Hhere : forall message, located token (report token message))
        by (intros message; split; reflexivity).
      destruct Hf as [[Hne ->]|[[Hne ->]|[[Hne ->]|(Hne & Hne' & ->)]]];
        do 2 eexists; (split; [assumption|]); (split; [rewrite He; reflexivity|]);
        rewrite He; simpl;
        (split; [|split; [repeat (constructor; [apply Hhere|]); exact Hloc | lia]]).
      * left. exists LPAREN. split; [congruence | reflexivity].
      * left. exists COMMA. split; [congruence | reflexivity].
      * left. exists RPAREN. split; [congruence | reflexivity].
      * right; left. now repeat split.
Qed.

Lemma parse_failure_diagnostics_witness :
  exists token first rest,
    Parser.current_token missing_comma_parser = Some token
    /\ Parser.errors missing_comma_parser = first :: rest
    /\ unmet_expectation token None (Parser.message first)
    /\ Forall (located token) (Parser.errors missing_comma_parser)
    /\ (length (Parser.errors missing_comma_parser) <= 3)%nat.
Proof.
  apply (proj2 (parse_failure_diagnostics 6 missing_comma None missing_comma_parser
                  missing_comma_run)).
  discriminate.
Defined.

(** Three operands with [+] between them, as [parse_sum] reads them. *)
Lemma parse_sum_three (parse_expr : Parser.M (option AST)) (fuel : nat)
  (a b c : AST) (s0 s1 s2 s3 s4 s5 s6 : Parser.t) :
  (2 <= fuel)%nat ->
  Parser.parse_prod parse_expr fuel s0 = Parser.Return (Some a) s1 ->
  Parser.parse_sum_tail s1 = Parser.Return (Some PLUS) s2 ->
  Parser.parse_prod parse_expr fuel s2 = Parser.Return (Some b) s3 ->
  Parser.parse_sum_tail s3 = Parser.Return (Some PLUS) s4 ->
  Parser.parse_prod parse_expr fuel s4 = Parser.Return (Some c) s5 ->
  Parser.parse_sum_tail s5 = Parser.Return None s6 ->
  Parser.parse_sum parse_expr fuel s0 = Parser.Return (Some (Add (Add a b) c)) s6.
Proof.
  intros Hfuel Ha Hp1 Hb Hp2 Hc Hend.
  unfold Parser.parse_sum, Parser.bind. rewrite Ha, Hp1.
  destruct fuel as [|[|n]]; try lia.
  cbn [Parser.sum_while TokenType_eqb]. unfold Parser.bind. rewrite Hb, Hp2.
  destruct n; cbn [Parser.sum_while TokenType_eqb]; unfold Parser.bind;
    rewrite Hc, Hend; reflexivity.
Qed.

(** Three operands with [*] between them, as [parse_prod] reads them. *)
Lemma parse_prod_three (parse_expr : Parser.M (option AST)) (fuel : nat)
  (a b c : AST) (s0 s1 s2 s3 s4 s5 s6 : Parser.t) :
  (2 <= fuel)%nat ->
  Parser.parse_atom parse_expr s0 = Parser.Return (Some a) s1 ->
  Parser.parse_prod_tail s1 = Parser.Return (Some MULT) s2 ->
  Parser.parse_atom parse_expr s2 = Parser.Return (Some b) s3 ->
  Parser.parse_prod_tail s3 = Parser.Return (Some MULT) s4 ->
  Parser.parse_atom parse_expr s4 = Parser.Return (Some c) s5 ->
  Parser.parse_prod_tail s5 = Parser.Return None s6 ->
  Parser.parse_prod parse_expr fuel s0 = Parser.Return (Some (Mul (Mul a b) c)) s6.
Proof.
  intros Hfuel Ha Hp1 Hb Hp2 Hc Hend.
  unfold Parser.parse_prod, Parser.bind. rewrite Ha, Hp1.
  destruct fuel as [|[|n]]; try lia.
  cbn [Parser.prod_while TokenType_eqb]. unfold Parser.bind. rewrite Hb, Hp2.
  destruct n; cbn [Parser.prod_while TokenType_eqb]; unfold Parser.bind;
    rewrite Hc, Hend; reflexivity.
Qed.

(** C3. Chains of one operator are grouped to the left: [1+2+3] parses to
    [Add(Add(1,2),3)] and [2*3*4] to [Mul(Mul(2,3),4)]; every tree that the
    parser returns has its sums and products nested to the left only; and
    whatever the operands [a], [b] and [c] read by the parser are, [a+b+c]
    becomes [Add(Add(a,b),c)] and [a*b*c] becomes [Mul(Mul(a,b),c)]. *)
Theorem chains_group_left :
  (forall isdigit int,
      ascii_builtins isdigit int ->
      parse_text isdigit int (text "1+2+3")
      = Some (Some (Add (Add (lit 1) (lit 2)) (lit 3)), [])
      /\ parse_text isdigit int (text "2*3*4")
         = Some (Some (Mul (Mul (lit 2) (lit 3)) (lit 4)), []))
  /\ (forall fuel tokens ast self,
         Parser.run_with fuel tokens = Parser.Return (Some ast) self ->
         left_assoc ast = true)
  /\ (forall parse_expr fuel a b c s0 s1 s2 s3 s4 s5 s6,
         (2 <= fuel)%nat ->
         Parser.parse_prod parse_expr fuel s0 = Parser.Return (Some a) s1 ->
         Parser.parse_sum_tail s1 = Parser.Return (Some PLUS) s2 ->
         Parser.parse_prod parse_expr fuel s2 = Parser.Return (Some b) s3 ->
         Parser.parse_sum_tail s3 = Parser.Return (Some PLUS) s4 ->
         Parser.parse_prod parse_expr fuel s4 = Parser.Return (Some c) s5 ->
         Parser.parse_sum_tail s5 = Parser.Return None s6 ->
         Parser.parse_sum parse_expr fuel s0 = Parser.Return (Some (Add (Add a b) c)) s6)
  /\ (forall parse_expr fuel a b c s0 s1 s2 s3 s4 s5 s6,
         (2 <= fuel)%nat ->
         Parser.parse_atom parse_expr s0 = Parser.Return (Some a) s1 ->
         Parser.parse_prod_tail s1 = Parser.Return (Some MULT) s2 ->
         Parser.parse_atom parse_expr s2 = Parser.Return (Some b) s3 ->
         Parser.parse_prod_tail s3 = Parser.Return (Some MULT) s4 ->
         Parser.parse_atom parse_expr s4 = Parser.Return (Some c) s5 ->
         Parser.parse_prod_tail s5 = Parser.Return None s6 ->
         Parser.parse_prod parse_expr fuel s0 = Parser.Return (Some (Mul (Mul a b) c)) s6).
Proof.
  split; [|split; [|split]].
  - intros isdigit int H.
    assert (run : forall source expected,
               forallb (fun ch => (ch <? 128)%N) source = true ->
               (length source <=? 640)%nat = true ->
               parse_text ascii_isdigit ascii_int source = Some expected ->
               parse_text isdigit int source = Some expected).
    { intros source expected Hascii Hlen Hrun. unfold parse_text.
      rewrite (scan_ascii isdigit int source H Hascii Hlen). exact Hrun. }
    split; apply run; vm_compute; reflexivity.
  - intros fuel tokens ast self Hrun.
    destruct (run_outcome fuel tokens (Some ast) self Hrun) as (_ & token & _ & _ & Hok & _).
    apply Hok.
  - exact parse_sum_three.
  - exact parse_prod_three.
Qed.

Lemma chains_group_left_witness :
  (parse_text ascii_isdigit ascii_int (text "1+2+3")
   = Some (Some (Add (Add (lit 1) (lit 2)) (lit 3)), [])
   /\ parse_text ascii_isdigit ascii_int (text "2*3*4")
      = Some (Some (Mul (Mul (lit 2) (lit 3)) (lit 4)), []))
  /\ Parser.parse_sum (Parser.parse_expr 5) 5 (at_token sum_chain 1)
     = Parser.Return (Some (Add (Add (lit 1) (lit 2)) (lit 3))) (at_token sum_chain 6)
  /\ Parser.parse_prod (Parser.parse_expr 5) 5 (at_token prod_chain 1)
     = Parser.Return (Some (Mul (Mul (lit 2) (lit 3)) (lit 4))) (at_token prod_chain 6).
Proof.
  split; [|split].
  - apply (proj1 chains_group_left ascii_isdigit ascii_int). exact ascii_builtins_ascii.
  - apply (proj1 (proj2 (proj2 chains_group_left)) (Parser.parse_expr 5) 5%nat
             (lit 1) (lit 2) (lit 3)
             (at_token sum_chain 1) (at_token sum_chain 2) (at_token sum_chain 3)
             (at_token sum_chain 4) (at_token sum_chain 5) (at_token sum_chain 6)
             (at_token sum_chain 6)); try reflexivity. lia.
  - apply (proj2 (proj2 (proj2 chains_group_left)) (Parser.parse_expr 5) 5%nat
             (lit 2) (lit 3) (lit 4)
             (at_token prod_chain 1) (at_token prod_chain 2) (at_token prod_chain 3)
             (at_token prod_chain 4) (at_token prod_chain 5) (at_token prod_chain 6)
             (at_token prod_chain 6)); try reflexivity. lia.
Defined.

(** ** Termination of the parser *)

Lemma wp_ret {A} (a : A) self (Q : A -> Parser.t -> Prop) :
  Q a self -> wp (Parser.ret a) self Q.
Proof. intros H. exists a, self. now split. Qed.

Lemma wp_bind {A B} (m : Parser.M A) (k : A -> Parser.M B) self (Q : B -> Parser.t -> Prop) :
  wp m self (fun a self' => wp (k a) self' Q) -> wp (Parser.bind m k) self Q.
Proof.
  intros (a & self' & Em & b & self'' & Ek & HQ). exists b, self''.
  unfold Parser.bind. rewrite Em. now split.
Qed.

Lemma wp_conseq {A} (m : Parser.M A) self (P Q : A -> Parser.t -> Prop) :
  wp m self P -> (forall a self', P a self' -> Q a self') -> wp m self Q.
Proof. intros (a & self' & Em & HP) HPQ. exists a, self'. split; auto. Qed.

Lemma well_formed_current self :
  well_formed self -> exists token, Parser.current_token self = Some token.
Proof.
  intros (Hpos & Hcur & _). rewrite Hcur.
  destruct (nth_error (Parser.tokens self) (Parser.pos self - 1)) as [token|] eqn:E.
  - now exists token.
  - apply nth_error_None in E. lia.
Qed.

Lemma well_formed_with_error self e :
  well_formed self -> well_formed (with_error self e) /\ remaining (with_error self e) = remaining self.
Proof. intros H. split; [exact H | reflexivity]. Qed.

Lemma wp_current self (Q : Token.t -> Parser.t -> Prop) :
  well_formed self ->
  (forall token, Parser.current_token self = Some token -> Q token self) ->
  wp Parser.current self Q.
Proof.
  intros Hwf H. destruct (well_formed_current self Hwf) as [token Htoken].
  exists token, self. unfold Parser.current. rewrite Htoken. split; auto.
Qed.

Lemma wp_add_error message line col self (Q : unit -> Parser.t -> Prop) :
  Q tt (with_error self {| Parser.message := message; Parser.at_line := line;
                           Parser.at_col := col |}) ->
  wp (Parser._add_error message line col) self Q.
Proof. intros H. eexists; eexists. split; [reflexivity | exact H]. Qed.

(** Past a token that is not [EOF] there is another token, and [_advance]
    moves to it. *)
Lemma wp_advance self token (Q : option Token.t -> Parser.t -> Prop) :
  well_formed self ->
  Parser.current_token self = Some token -> Token.type token <> EOF ->
  (forall r self',
      well_formed self' -> S (remaining self') = remaining self -> Q r self') ->
  wp Parser._advance self Q.
Proof.
  intros (Hpos & Hcur & eof & Hlast & Heof) Htoken Hty HQ.
  assert (Hlt : (Parser.pos self < length (Parser.tokens self))%nat).
  { destruct (Nat.eq_dec (Parser.pos self) (length (Parser.tokens self))) as [E|E]; [|lia].
    rewrite Hcur, E, Hlast in Htoken. congruence. }
  unfold wp, Parser._advance.
  destruct (Nat.ltb_spec (Parser.pos self) (length (Parser.tokens self))); [|lia].
  destruct (nth_error (Parser.tokens self) (Parser.pos self)) as [next|] eqn:En.
  2:{ apply nth_error_None in En. lia. }
  eexists; eexists. split; [reflexivity|]. apply HQ.
  - repeat split; simpl; try lia.
    + rewrite <- En. f_equal. lia.
    + exists eof. now split.
  - unfold remaining; simpl. lia.
Qed.

Lemma wp_match expected self (Q : option Token.t -> Parser.t -> Prop) :
  well_formed self -> expected <> EOF ->
  (forall token self',
      Parser.current_token self = Some token -> Token.type token = expected ->
      well_formed self' -> S (remaining self') = remaining self ->
      Q (Some token) self') ->
  (forall token,
      Parser.current_token self = Some token -> Token.type token <> expected ->
      Q None (with_error self (report token (Parser.Expected expected (Token.type token))))) ->
  wp (Parser._match expected) self Q.
Proof.
  intros Hwf Hexp Hok Hfail. unfold Parser._match.
  apply wp_bind, wp_current; [assumption|]. intros cur Hcur.
  destruct (TokenType_eqb (Token.type cur) expected) eqn:Hty.
  - apply TokenType_eqb_eq in Hty.
    apply wp_bind, wp_current; [assumption|]. intros token Htoken.
    assert (token = cur) by congruence. subst token.
    apply wp_bind, (wp_advance self cur); try assumption; [congruence|].
    intros r self' Hwf' Hrem. apply wp_ret. now apply Hok.
  - apply TokenType_eqb_neq in Hty.
    apply wp_bind, wp_current; [assumption|]. intros token Htoken.
    assert (token = cur) by congruence. subst token.
    apply wp_bind, wp_add_error, wp_ret. now apply Hfail.
Qed.

Lemma wp_sum_tail self (Q : option TokenType -> Parser.t -> Prop) :
  well_formed self ->
  (forall self', well_formed self' -> S (remaining self') = remaining self ->
                 Q (Some PLUS) self') ->
  Q None self ->
  wp Parser.parse_sum_tail self Q.
Proof.
  intros Hwf Hsome Hnone. unfold Parser.parse_sum_tail.
  apply wp_bind, wp_current; [assumption|]. intros cur Hcur.
  destruct (TokenType_eqb (Token.type cur) PLUS) eqn:Hty; [|now apply wp_ret].
  apply TokenType_eqb_eq in Hty.
  apply wp_bind, wp_match; [assumption | discriminate | |].
  - intros token self' _ _ Hwf' Hrem. apply wp_ret. now apply Hsome.
  - intros token Htoken Hne. congruence.
Qed.

Lemma wp_prod_tail self (Q : option TokenType -> Parser.t -> Prop) :
  well_formed self ->
  (forall self', well_formed self' -> S (remaining self') = remaining self ->
                 Q (Some MULT) self') ->
  Q None self ->
  wp Parser.parse_prod_tail self Q.
Proof.
  intros Hwf Hsome Hnone. unfold Parser.parse_prod_tail.
  apply wp_bind, wp_current; [assumption|]. intros cur Hcur.
  destruct (TokenType_eqb (Token.type cur) MULT) eqn:Hty; [|now apply wp_ret].
  apply TokenType_eqb_eq in Hty.
  apply wp_bind, wp_match; [assumption | discriminate | |].
  - intros token self' _ _ Hwf' Hrem. apply wp_ret. now apply Hsome.
  - intros token Htoken Hne. congruence.
Qed.

Lemma progress_intro self r self' :
  well_formed self' ->
  (remaining self' <= remaining self)%nat ->
  (r <> None -> (remaining self' < remaining self)%nat) ->
  progress self r self'.
Proof. intros H1 H2 H3. split; [exact H1 | split; [exact H2 | exact H3]]. Qed.

Ltac solve_progress H :=
  apply progress_intro;
  [ exact H
  | unfold remaining in *; simpl; lia
  | first [ congruence | intros _; unfold remaining in *; simpl; lia ] ].

(** Every descent from [parse_atom] into [parse_expr] comes after the tokens
    [pow] and [(] were consumed: [parse_atom] returns on one more remaining
    token than [parse_expr] is known to return on. *)
Lemma parse_atom_terminates (bound : nat) (parse_expr : Parser.M (option AST)) :
  terminates bound parse_expr -> terminates (S bound) (Parser.parse_atom parse_expr).
Proof.
  intros Hexpr self Hwf Hrem. unfold Parser.parse_atom.
  apply wp_bind, wp_current; [assumption|]. intros cur Hcur.
  destruct (TokenType_eqb (Token.type cur) INT) eqn:Hint.
  { apply TokenType_eqb_eq in Hint. apply wp_bind, wp_match; [assumption | discriminate | |].
    - intros token s1 _ _ Hwf1 Hrem1. apply wp_ret. solve_progress Hwf1.
    - intros token Htoken Hne. congruence. }
  destruct (TokenType_eqb (Token.type cur) POW) eqn:Hpow.
  { apply TokenType_eqb_eq in Hpow. apply wp_bind, wp_match; [assumption | discriminate | |].
    2:{ intros token Htoken Hne. congruence. }
    intros pow_token s1 _ _ Hwf1 Hrem1.
    apply wp_bind, wp_match; [assumption | discriminate | |].
    2:{ intros token Htoken Hne. apply wp_ret. solve_progress Hwf1. }
    intros lparen s2 _ _ Hwf2 Hrem2.
    apply wp_bind. eapply wp_conseq; [apply Hexpr; [assumption | lia]|].
    intros [arg1|] s3 (Hwf3 & Hrem3 & Hlt3).
    2:{ apply wp_ret. solve_progress Hwf3. }
    apply wp_bind, wp_match; [assumption | discriminate | |].
    2:{ intros token Htoken Hne.
        apply wp_bind, wp_current; [exact Hwf3|]. intros got Hgot.
        apply wp_bind, wp_add_error, wp_ret. solve_progress Hwf3. }
    intros comma s4 _ _ Hwf4 Hrem4.
    apply wp_bind. eapply wp_conseq; [apply Hexpr; [assumption | lia]|].
    intros [arg2|] s5 (Hwf5 & Hrem5 & Hlt5).
    2:{ apply wp_ret. solve_progress Hwf5. }
    apply wp_bind, wp_match; [assumption | discriminate | |].
    2:{ intros token Htoken Hne.
        apply wp_bind, wp_current; [exact Hwf5|]. intros got Hgot.
        apply wp_bind, wp_add_error, wp_ret. solve_progress Hwf5. }
    intros rparen s6 _ _ Hwf6 Hrem6. apply wp_ret. solve_progress Hwf6. }
  apply wp_bind, wp_current; [assumption|]. intros got Hgot.
  apply wp_bind, wp_add_error, wp_ret. solve_progress Hwf.
Qed.

Section Termination.

Variable parse_expr : Parser.M (option AST).
Variables bound fuel : nat.
Hypothesis parse_expr_terminates : terminates bound parse_expr.
Hypothesis fuel_covers_bound : (bound <= fuel)%nat.

(** Each iteration of a loop consumes a token, and the loop is entered with
    fewer tokens remaining than iterations allowed. *)
Lemma prod_while_terminates n node prod_tail_node self :
  well_formed self -> (remaining self < S bound)%nat ->
  (prod_tail_node <> None -> (remaining self < n)%nat) ->
  wp (Parser.prod_while parse_expr n node prod_tail_node) self
    (fun _ self' => well_formed self' /\ (remaining self' <= remaining self)%nat).
Proof.
  revert node prod_tail_node self.
  induction n as [|n IH]; intros node [op|] self Hwf Hrem Hn; simpl;
    try (apply wp_ret; split; [assumption | lia]).
  - assert (remaining self < 0)%nat by (apply Hn; discriminate). lia.
  - assert (Hlt : (remaining self < S n)%nat) by (apply Hn; discriminate).
    destruct (TokenType_eqb op MULT); [|apply wp_ret; split; [assumption | lia]].
    apply wp_bind.
    eapply wp_conseq; [apply (parse_atom_terminates bound parse_expr); assumption|].
    intros [right'|] s1 (Hwf1 & Hrem1 & Hlt1).
    2:{ apply wp_ret. split; [assumption | lia]. }
    assert ((remaining s1 < remaining self)%nat) by (apply Hlt1; discriminate).
    apply wp_bind, wp_prod_tail; [assumption | |].
    + intros s2 Hwf2 Hrem2.
      eapply wp_conseq; [apply IH; [assumption | lia | intros _; lia]|].
      intros r self' [Hwf' Hrem']. split; [assumption | lia].
    + eapply wp_conseq; [apply IH; [assumption | lia | congruence]|].
      intros r self' [Hwf' Hrem']. split; [assumption | lia].
Qed.

Lemma parse_prod_terminates : terminates (S bound) (Parser.parse_prod parse_expr fuel).
Proof.
  intros self Hwf Hrem. unfold Parser.parse_prod.
  apply wp_bind.
  eapply wp_conseq; [apply (parse_atom_terminates bound parse_expr); assumption|].
  intros [node|] s1 (Hwf1 & Hrem1 & Hlt1).
  2:{ apply wp_ret. solve_progress Hwf1. }
  assert ((remaining s1 < remaining self)%nat) by (apply Hlt1; discriminate).
  apply wp_bind, wp_prod_tail; [assumption | |].
  - intros s2 Hwf2 Hrem2.
    eapply wp_conseq; [apply prod_while_terminates; [assumption | lia | intros _; lia]|].
    intros r self' [Hwf' Hrem']. apply progress_intro; [assumption | lia | intros _; lia].
  - apply wp_ret. solve_progress Hwf1.
Qed.

Lemma sum_while_terminates n node sum_tail_node self :
  well_formed self -> (remaining self < S bound)%nat ->
  (sum_tail_node <> None -> (remaining self < n)%nat) ->
  wp (Parser.sum_while parse_expr fuel n node sum_tail_node) self
    (fun _ self' => well_formed self' /\ (remaining self' <= remaining self)%nat).
Proof.
  revert node sum_tail_node self.
  induction n as [|n IH]; intros node [op|] self Hwf Hrem Hn; simpl;
    try (apply wp_ret; split; [assumption | lia]).
  - assert (remaining self < 0)%nat by (apply Hn; discriminate). lia.
  - assert (Hlt : (remaining self < S n)%nat) by (apply Hn; discriminate).
    destruct (TokenType_eqb op PLUS); [|apply wp_ret; split; [assumption | lia]].
    apply wp_bind.
    eapply wp_conseq; [apply parse_prod_terminates; assumption|].
    intros [right'|] s1 (Hwf1 & Hrem1 & Hlt1).
    2:{ apply wp_ret. split; [assumption | lia]. }
    assert ((remaining s1 < remaining self)%nat) by (apply Hlt1; discriminate).
    apply wp_bind, wp_sum_tail; [assumption | |].
    + intros s2 Hwf2 Hrem2.
      eapply wp_conseq; [apply IH; [assumption | lia | intros _; lia]|].
      intros r self' [Hwf' Hrem']. split; [assumption | lia].
    + eapply wp_conseq; [apply IH; [assumption | lia | congruence]|].
      intros r self' [Hwf' Hrem']. split; [assumption | lia].
Qed.

Lemma parse_sum_terminates : terminates (S bound) (Parser.parse_sum parse_expr fuel).
Proof.
  intros self Hwf Hrem. unfold Parser.parse_sum.
  apply wp_bind.
  eapply wp_conseq; [apply parse_prod_terminates; assumption|].
  intros [node|] s1 (Hwf1 & Hrem1 & Hlt1).
  2:{ apply wp_ret. solve_progress Hwf1. }
  assert ((remaining s1 < remaining self)%nat) by (apply Hlt1; discriminate).
  apply wp_bind, wp_sum_tail; [assumption | |].
  - intros s2 Hwf2 Hrem2.
    eapply wp_conseq; [apply sum_while_terminates; [assumption | lia | intros _; lia]|].
    intros r self' [Hwf' Hrem']. apply progress_intro; [assumption | lia | intros _; lia].
  - apply wp_ret. solve_progress Hwf1.
Qed.

End Termination.

(** The recursion of the four grammar methods is well founded on the number
    of remaining tokens: [fuel] nested calls are enough when fewer than
    [fuel] tokens remain. *)
Lemma parse_expr_terminates (fuel : nat) : terminates fuel (Parser.parse_expr fuel).
Proof.
  induction fuel as [|fuel IH].
  - intros self _ Hrem. lia.
  - simpl. apply (parse_sum_terminates (Parser.parse_expr fuel) fuel fuel IH). lia.
Qed.

(** [_advance] reads [tokens[pos]] under the guard [pos < len(tokens)] only. *)
Lemma _advance_in_range (self : Parser.t) :
  Parser._advance self <> Parser.Raise Parser.IndexError.
Proof.
  unfold Parser._advance.
  destruct (Nat.ltb_spec (Parser.pos self) (length (Parser.tokens self))) as [Hlt|];
    [|discriminate].
  destruct (nth_error (Parser.tokens self) (Parser.pos self)) eqn:E; [discriminate|].
  apply nth_error_None in E. lia.
Qed.

Lemma _advance_at_end (self : Parser.t) :
  (length (Parser.tokens self) <= Parser.pos self)%nat ->
  Parser._advance self = Parser.Return (Parser.current_token self) self.
Proof.
  intros H. unfold Parser._advance.
  destruct (Nat.ltb_spec (Parser.pos self) (length (Parser.tokens self))); [lia | reflexivity].
Qed.

Lemma init_well_formed (front : list Token.t) (eof : Token.t) :
  Token.type eof = EOF ->
  exists first self,
    Parser.init (front ++ [eof]) = Parser.Return first self
    /\ well_formed self
    /\ S (remaining self) = length (front ++ [eof]).
Proof.
  intros Heof. unfold Parser.init, Parser._advance.
  cbn [Parser.tokens Parser.pos Parser.current_token Parser.errors].
  assert (Hlen : length (front ++ [eof]) = S (length front))
    by (rewrite length_app; simpl; lia).
  destruct (Nat.ltb_spec 0 (length (front ++ [eof]))); [|lia].
  destruct (nth_error (front ++ [eof]) 0) as [first|] eqn:E.
  2:{ apply nth_error_None in E. lia. }
  eexists; eexists. split; [reflexivity|]. split.
  - unfold well_formed.
    cbn [Parser.tokens Parser.pos Parser.current_token Parser.errors Nat.add Nat.sub].
    split; [lia|]. split; [now rewrite E|].
    exists eof. split; [|assumption].
    rewrite Hlen. replace (S (length front) - 1)%nat with (length front) by lia.
    rewrite nth_error_app2 by lia. now rewrite Nat.sub_diag.
  - unfold remaining.
    cbn [Parser.tokens Parser.pos Parser.current_token Parser.errors]. lia.
Qed.

(** ** More fuel does not change a result *)

Lemma refines_refl {A} (m : Parser.M A) : refines m m.
Proof. intros self a self' E. exact E. Qed.

Lemma refines_bind {A B} (m m' : Parser.M A) (k k' : A -> Parser.M B) :
  refines m m' -> (forall a, refines (k a) (k' a)) ->
  refines (Parser.bind m k) (Parser.bind m' k').
Proof.
  intros Hm Hk self b self'' E. unfold Parser.bind in *.
  destruct (m self) as [a self'| |] eqn:Em; try discriminate.
  rewrite (Hm _ _ _ Em). now apply Hk.
Qed.

Lemma refines_out_of_fuel {A} (m : Parser.M A) : refines (fun _ => Parser.OutOfFuel) m.
Proof. intros self a self' E. discriminate. Qed.

Ltac refines_step :=
  first
    [ apply refines_refl
    | assumption
    | apply refines_out_of_fuel
    | apply refines_bind; [|intros ?]
    | match goal with
      | |- refines (match ?x with _ => _ end) _ => destruct x
      end ].

Section FuelMonotone.

Variables parse_expr parse_expr' : Parser.M (option AST).
Variables fuel fuel' : nat.
Hypothesis parse_expr_refines : refines parse_expr parse_expr'.
Hypothesis fuel_le : (fuel <= fuel')%nat.

Lemma parse_atom_mono :
  refines (Parser.parse_atom parse_expr) (Parser.parse_atom parse_expr').
Proof. unfold Parser.parse_atom. repeat refines_step. Qed.

Lemma prod_while_mono n n' node prod_tail_node :
  (n <= n')%nat ->
  refines (Parser.prod_while parse_expr n node prod_tail_node)
    (Parser.prod_while parse_expr' n' node prod_tail_node).
Proof.
  revert n' node prod_tail_node.
  induction n as [|n IH]; intros n' node [op|] Hle; simpl;
    try (destruct n'; simpl; apply refines_refl); try apply refines_out_of_fuel.
  destruct n' as [|n']; [lia|]. simpl.
  destruct (TokenType_eqb op MULT); [|apply refines_refl].
  apply refines_bind; [apply parse_atom_mono|]. intros [right'|]; [|apply refines_refl].
  apply refines_bind; [apply refines_refl|]. intros tail. apply IH. lia.
Qed.

Lemma parse_prod_mono :
  refines (Parser.parse_prod parse_expr fuel) (Parser.parse_prod parse_expr' fuel').
Proof.
  unfold Parser.parse_prod.
  apply refines_bind; [apply parse_atom_mono|]. intros [node|]; [|apply refines_refl].
  apply refines_bind; [apply refines_refl|]. intros [op|]; [|apply refines_refl].
  now apply prod_while_mono.
Qed.

Lemma sum_while_mono n n' node sum_tail_node :
  (n <= n')%nat ->
  refines (Parser.sum_while parse_expr fuel n node sum_tail_node)
    (Parser.sum_while parse_expr' fuel' n' node sum_tail_node).
Proof.
  revert n' node sum_tail_node.
  induction n as [|n IH]; intros n' node [op|] Hle; simpl;
    try (destruct n'; simpl; apply refines_refl); try apply refines_out_of_fuel.
  destruct n' as [|n']; [lia|]. simpl.
  destruct (TokenType_eqb op PLUS); [|apply refines_refl].
  apply refines_bind; [apply parse_prod_mono|]. intros [right'|]; [|apply refines_refl].
  apply refines_bind; [apply refines_refl|]. intros tail. apply IH. lia.
Qed.

Lemma parse_sum_mono :
  refines (Parser.parse_sum parse_expr fuel) (Parser.parse_sum parse_expr' fuel').
Proof.
  unfold Parser.parse_sum.
  apply refines_bind; [apply parse_prod_mono|]. intros [node|]; [|apply refines_refl].
  apply refines_bind; [apply refines_refl|]. intros [op|]; [|apply refines_refl].
  now apply sum_while_mono.
Qed.

End FuelMonotone.

Lemma parse_expr_mono (fuel fuel' : nat) :
  (fuel <= fuel')%nat -> refines (Parser.parse_expr fuel) (Parser.parse_expr fuel').
Proof.
  revert fuel'. induction fuel as [|fuel IH]; intros fuel' Hle; simpl.
  - apply refines_out_of_fuel.
  - destruct fuel' as [|fuel']; [lia|]. simpl.
    apply parse_sum_mono; [apply IH|]; lia.
Qed.

Lemma run_with_mono (fuel fuel' : nat) (tokens : list Token.t) (ast : option AST)
  (self : Parser.t) :
  (fuel <= fuel')%nat ->
  Parser.run_with fuel tokens = Parser.Return ast self ->
  Parser.run_with fuel' tokens = Parser.Return ast self.
Proof.
  intros Hle. unfold Parser.run_with.
  destruct (Parser.init tokens) as [first s0| |]; try discriminate.
  assert (H : refines (Parser.parse fuel) (Parser.parse fuel')).
  { unfold Parser.parse. apply refines_bind; [now apply parse_expr_mono|].
    intros tree. apply refines_refl. }
  apply H.
Qed.

(** C10. On a token list that ends with [EOF], [parse] returns: it raises
    nothing, and the nesting and iterations it needs are within the length of
    the list. [_advance] never reads outside the list and leaves the parser
    as it is once [pos] has reached the end; [parse_atom] descends into
    [parse_expr] only with fewer tokens remaining, so that the grammar
    methods return whenever fewer tokens remain than nested calls are
    allowed; and a larger bound gives the same result. *)
Theorem parse_terminates :
  (forall front eof,
      Token.type eof = EOF ->
      exists ast self,
        Parser.run (front ++ [eof]) = Parser.Return ast self /\ well_formed self)
  /\ (forall self, Parser._advance self <> Parser.Raise Parser.IndexError)
  /\ (forall self,
         (length (Parser.tokens self) <= Parser.pos self)%nat ->
         Parser._advance self = Parser.Return (Parser.current_token self) self)
  /\ (forall bound parse_expr,
         terminates bound parse_expr -> terminates (S bound) (Parser.parse_atom parse_expr))
  /\ (forall fuel, terminates fuel (Parser.parse_expr fuel))
  /\ (forall front eof fuel,
         Token.type eof = EOF ->
         (length (front ++ [eof]) <= fuel)%nat ->
         Parser.run_with fuel (front ++ [eof]) = Parser.run (front ++ [eof])).
Proof.
  assert (returns : forall front eof,
             Token.type eof = EOF ->
             exists ast self,
               Parser.run (front ++ [eof]) = Parser.Return ast self /\ well_formed self).
  { intros front eof Heof. unfold Parser.run, Parser.run_with.
    destruct (init_well_formed front eof Heof) as (first & s0 & -> & Hwf & Hrem).
    assert (H : wp (Parser.parse (length (front ++ [eof]))) s0
                  (fun _ self => well_formed self)).
    { unfold Parser.parse. apply wp_bind.
      eapply wp_conseq; [apply parse_expr_terminates; [assumption | lia]|].
      intros ast s1 (Hwf1 & _ & _).
      apply wp_bind, wp_current; [assumption|]. intros cur Hcur.
      destruct (negb (TokenType_eqb (Token.type cur) EOF)).
      - apply wp_bind, wp_bind, wp_current; [assumption|]. intros got Hgot.
        apply wp_add_error, wp_ret. exact Hwf1.
      - apply wp_bind, wp_ret, wp_ret. exact Hwf1. }
    destruct H as (ast & self & Hrun & Hwf'). now exists ast, self. }
  split; [exact returns|]. split; [exact _advance_in_range|].
  split; [exact _advance_at_end|]. split; [exact parse_atom_terminates|].
  split; [exact parse_expr_terminates|].
  intros front eof fuel Heof Hle.
  destruct (returns front eof Heof) as (ast & self & Hrun & _).
  rewrite Hrun. now apply (run_with_mono (length (front ++ [eof])) fuel).
Qed.

Lemma parse_terminates_witness :
  (exists ast self,
      Parser.run (pow_call ++ [Token.Token EOF NoneValue 1 9]) = Parser.Return ast self
      /\ well_formed self)
  /\ Parser.run_with 100 (pow_call ++ [Token.Token EOF NoneValue 1 9])
     = Parser.run (pow_call ++ [Token.Token EOF NoneValue 1 9]).
Proof.
  split.
  - apply (proj1 parse_terminates pow_call (Token.Token EOF NoneValue 1 9)). reflexivity.
  - apply (proj2 (proj2 (proj2 (proj2 (proj2 parse_terminates))))
             pow_call (Token.Token EOF NoneValue 1 9) 100%nat); [reflexivity|].
    simpl. lia.
Defined.

(** * The checks for negative values *)

Lemma subtrees_literals (ast node : AST) :
  In node (subtrees ast) -> forall value, In value (literals node) -> In value (literals ast).
Proof.
  induction ast as [v|l IHl r IHr|l IHl r IHr|l IHl r IHr]; simpl;
    intros [<-|Hin] value Hvalue; try assumption; try contradiction;
    apply in_app_or in Hin as [Hin|Hin]; apply in_or_app; eauto.
Qed.

(** On natural literals the evaluator returns a natural number or [None],
    and the only diagnostic that it records is the one for the exponent
    bound. *)
Lemma evaluate_natural (ast : AST) :
  natural_literals ast ->
  forall errors,
    exists value new,
      SemanticAnalyzer.evaluate_node ast errors = SemanticAnalyzer.Return value (errors ++ new)
      /\ natural_or_none value
      /\ forall message, In message new ->
           exists exponent, message = SemanticAnalyzer.ExponentTooLarge exponent.
Proof.
  unfold natural_literals.
  induction ast as [v|l IHl r IHr|l IHl r IHr|l IHl r IHr]; intros Hlit errors.
  - destruct (Hlit v (or_introl eq_refl)) as (n & -> & Hn).
    exists (IntValue n), []. simpl. rewrite app_nil_r.
    repeat split; [right; eauto | contradiction].
  - destruct (IHl (fun v H => Hlit v (in_or_app _ _ _ (or_introl H))) errors)
      as (vl & n1 & El & Hvl & Hn1).
    destruct (IHr (fun v H => Hlit v (in_or_app _ _ _ (or_intror H))) (errors ++ n1))
      as (vr & n2 & Er & Hvr & Hn2).
    cbn [SemanticAnalyzer.evaluate_node]. rewrite El, Er.
    exists (match vl, vr with IntValue a, IntValue b => IntValue (a + b) | _, _ => NoneValue end),
      (n1 ++ n2).
    rewrite app_assoc.
    assert (Hnew : forall message, In message (n1 ++ n2) ->
               exists exponent, message = SemanticAnalyzer.ExponentTooLarge exponent).
    { intros message Hin. apply in_app_or in Hin as [Hin|Hin]; auto. }
    destruct Hvl as [->|(a & -> & Ha)], Hvr as [->|(b & -> & Hb)];
      try (repeat split; [now left | exact Hnew]).
    destruct (Z.ltb_spec (a + b) 0); [lia|].
    repeat split; [right; exists (a + b); split; [reflexivity | lia] | exact Hnew].
  - destruct (IHl (fun v H => Hlit v (in_or_app _ _ _ (or_introl H))) errors)
      as (vl & n1 & El & Hvl & Hn1).
    destruct (IHr (fun v H => Hlit v (in_or_app _ _ _ (or_intror H))) (errors ++ n1))
      as (vr & n2 & Er & Hvr & Hn2).
    cbn [SemanticAnalyzer.evaluate_node]. rewrite El, Er.
    exists (match vl, vr with IntValue a, IntValue b => IntValue (a * b) | _, _ => NoneValue end),
      (n1 ++ n2).
    rewrite app_assoc.
    assert (Hnew : forall message, In message (n1 ++ n2) ->
               exists exponent, message = SemanticAnalyzer.ExponentTooLarge exponent).
    { intros message Hin. apply in_app_or in Hin as [Hin|Hin]; auto. }
    destruct Hvl as [->|(a & -> & Ha)], Hvr as [->|(b & -> & Hb)];
      try (repeat split; [now left | exact Hnew]).
    pose proof (Z.mul_nonneg_nonneg a b Ha Hb).
    destruct (Z.ltb_spec (a * b) 0); [lia|].
    repeat split; [right; exists (a * b); split; [reflexivity | lia] | exact Hnew].
  - destruct (IHl (fun v H => Hlit v (in_or_app _ _ _ (or_introl H))) errors)
      as (vl & n1 & El & Hvl & Hn1).
    destruct (IHr (fun v H => Hlit v (in_or_app _ _ _ (or_intror H))) (errors ++ n1))
      as (vr & n2 & Er & Hvr & Hn2).
    cbn [SemanticAnalyzer.evaluate_node]. rewrite El, Er.
    assert (Hnew : forall message, In message (n1 ++ n2) ->
               exists exponent, message = SemanticAnalyzer.ExponentTooLarge exponent).
    { intros message Hin. apply in_app_or in Hin as [Hin|Hin]; auto. }
    destruct Hvl as [->|(a & -> & Ha)], Hvr as [->|(b & -> & Hb)];
      try (exists NoneValue, (n1 ++ n2); rewrite app_assoc;
           repeat split; [now left | exact Hnew]).
    destruct (Z.ltb_spec a 0); [lia|].
    destruct (Z.ltb_spec b 0); [lia|].
    destruct (Z.gtb_spec b 1000).
    + exists NoneValue, (n1 ++ n2 ++ [SemanticAnalyzer.ExponentTooLarge b]).
      rewrite !app_assoc. repeat split; [now left|].
      intros message Hin.
      apply in_app_or in Hin as [Hin|[<-|[]]]; eauto.
    + pose proof (Z.pow_nonneg a b Ha).
      destruct (Z.ltb_spec (a ^ b) 0); [lia|].
      exists (IntValue (a ^ b)), (n1 ++ n2). rewrite app_assoc.
      repeat split; [right; exists (a ^ b); split; [reflexivity | lia] | exact Hnew].
Qed.

Section ScannerNaturals.

Variable isdigit : char -> bool.
Variable int : str -> option Z.

Lemma natural_tokens_snoc tokens token :
  natural_tokens tokens ->
  (Token.type token = INT -> exists value, Token.value token = IntValue value /\ 0 <= value) ->
  natural_tokens (tokens ++ [token]).
Proof.
  intros H Htoken t Hin. apply in_app_or in Hin as [Hin|[<-|[]]]; auto.
Qed.

Lemma natural_tokens_stepped self self' :
  natural_tokens (Scanner.tokens self) -> stepped isdigit int self self' ->
  natural_tokens (Scanner.tokens self').
Proof.
  intros H Hstep.
  destruct Hstep as [ | | n num_str value ? ? ? ? Hvalue | n type ? ? ? ? Hint | n value message];
    simpl; try assumption; apply natural_tokens_snoc; try assumption; simpl.
  - intros _. now exists value.
  - intros E. contradiction.
  - discriminate.
Qed.

Lemma no_negative_literal_stepped self self' :
  int_natural isdigit int ->
  no_negative_literal (Scanner.errors self) -> stepped isdigit int self self' ->
  no_negative_literal (Scanner.errors self').
Proof.
  intros Hint H Hstep.
  destruct Hstep as [ | | | | n value message ? ? Hneg]; simpl; try assumption.
  intros e v Hin. apply in_app_or in Hin as [Hin|[<-|[]]]; [now apply H|].
  simpl. intros E. destruct (Hneg v E) as (num_str & Hall & Hsome & Hlt).
  specialize (Hint num_str v Hall Hsome). lia.
Qed.

End ScannerNaturals.

Lemma decimal_fold_natural (num_str : str) (acc : Z) :
  0 <= acc -> forallb ascii_isdigit num_str = true ->
  0 <= fold_left (fun acc ch => 10 * acc + (Z.of_N ch - 48)) num_str acc.
Proof.
  revert acc. induction num_str as [|ch rest IH]; intros acc Hacc Hall;
    cbn [fold_left forallb] in *; [assumption|].
  apply andb_prop in Hall as [Hch Hrest]. apply IH; [|assumption].
  unfold ascii_isdigit in Hch. apply andb_prop in Hch as [Hlo Hhi].
  apply N.leb_le in Hlo. lia.
Qed.

Lemma ascii_int_natural : int_natural ascii_isdigit ascii_int.
Proof.
  intros num_str value Hall Hint. unfold ascii_int in Hint. rewrite Hall in Hint.
  destruct (negb (str_eqb num_str [])); simpl in Hint; [|discriminate].
  inversion Hint; subst. apply decimal_fold_natural; [lia | assumption].
Qed.

(** C8. Whatever the input text, the checks for negative values are never
    taken: the scanner records no negative literal (given that [int] returns
    no negative number on a run of digits), every [INT] token carries an
    integer that is not negative, and in the tree that the parser builds from
    the tokens every subtree evaluates to [None] or to an integer that is not
    negative, recording no diagnostic other than the one for the exponent
    bound. *)
Theorem negative_checks_unreachable (isdigit : char -> bool) (int : str -> option Z)
  (source : str) (scanner : Scanner.t) :
  Scanner.scan isdigit int source = Some scanner ->
  (int_natural isdigit int -> no_negative_literal (Scanner.errors scanner))
  /\ natural_tokens (Scanner.tokens scanner)
  /\ (forall fuel ast parser,
         Parser.run_with fuel (Scanner.tokens scanner) = Parser.Return (Some ast) parser ->
         forall node, In node (subtrees ast) ->
         forall errors,
           exists value new,
             SemanticAnalyzer.evaluate_node node errors
             = SemanticAnalyzer.Return value (errors ++ new)
             /\ natural_or_none value
             /\ forall message, In message new ->
                  exists exponent, message = SemanticAnalyzer.ExponentTooLarge exponent).
Proof.
  intros Hscan.
  destruct (scan_returns isdigit int source) as (self & Hloop & _ & _ & Hscan').
  rewrite Hscan in Hscan'. inversion Hscan'; subst scanner. clear Hscan'.
  assert (Htokens : natural_tokens (Scanner.tokens self)).
  { apply (loop_invariant isdigit int (fun s => natural_tokens (Scanner.tokens s))
             (natural_tokens_stepped isdigit int) _ _ _) with (2 := Hloop).
    intros token []. }
  assert (Hall : natural_tokens
                   (Scanner.tokens
                      (Scanner.append EOF NoneValue (Scanner.line self) (Scanner.col self) self))).
  { simpl. apply natural_tokens_snoc; [assumption | discriminate]. }
  split; [|split].
  - intros Hint. simpl.
    apply (loop_invariant isdigit int (fun s => no_negative_literal (Scanner.errors s))
             (fun s s' => no_negative_literal_stepped isdigit int s s' Hint) _ _ _)
      with (2 := Hloop).
    intros e value [].
  - exact Hall.
  - intros fuel ast parser Hrun node Hnode.
    apply evaluate_natural. intros value Hvalue.
    destruct (run_outcome _ _ _ _ Hrun) as (_ & token & _ & _ & (_ & Hfrom) & _).
    destruct (Hfrom value (subtrees_literals ast node Hnode value Hvalue))
      as (t & Hin & Hty & <-).
    now apply Hall.
Qed.

Lemma negative_checks_unreachable_witness :
  exists scanner,
    Scanner.scan ascii_isdigit ascii_int (text "pow(2,3)*4") = Some scanner
    /\ no_negative_literal (Scanner.errors scanner)
    /\ natural_tokens (Scanner.tokens scanner)
    /\ forall fuel ast parser,
         Parser.run_with fuel (Scanner.tokens scanner) = Parser.Return (Some ast) parser ->
         forall node, In node (subtrees ast) ->
         forall errors,
           exists value new,
             SemanticAnalyzer.evaluate_node node errors
             = SemanticAnalyzer.Return value (errors ++ new)
             /\ natural_or_none value
             /\ forall message, In message new ->
                  exists exponent, message = SemanticAnalyzer.ExponentTooLarge exponent.
Proof.
  destruct (Scanner.scan ascii_isdigit ascii_int (text "pow(2,3)*4")) as [scanner|] eqn:E.
  - exists scanner. split; [reflexivity|].
    destruct (negative_checks_unreachable ascii_isdigit ascii_int _ scanner E)
      as (H1 & H2 & H3).
    split; [exact (H1 ascii_int_natural) | split; [exact H2 | exact H3]].
  - vm_compute in E. discriminate E.
Defined.


(** * Further properties of the evaluator *)


(** X1. The diagnostics that an evaluation records do not depend on the ones
    recorded before it: evaluating a node with the list [errors] returns what
    evaluating it with the empty list returns, with the new diagnostics
    appended to [errors]. *)
Theorem evaluate_appends (node : AST) (errors : list SemanticAnalyzer.Message) :
  SemanticAnalyzer.evaluate_node node errors
  = match SemanticAnalyzer.evaluate_node node [] with
    | SemanticAnalyzer.Return value new => SemanticAnalyzer.Return value (errors ++ new)
    | SemanticAnalyzer.TypeError => SemanticAnalyzer.TypeError
    end.
Proof.
  revert errors.
  induction node as [v|l IHl r IHr|l IHl r IHr|l IHl r IHr]; intros errors;
    cbn [SemanticAnalyzer.evaluate_node].
  - now rewrite app_nil_r.
  - rewrite (IHl errors). destruct (SemanticAnalyzer.evaluate_node l []) as [vl n1|];
      [|reflexivity].
    rewrite (IHr (errors ++ n1)), (IHr n1).
    destruct (SemanticAnalyzer.evaluate_node r []) as [vr n2|]; [|reflexivity].
    destruct vl as [|a|s], vr as [|b|s']; rewrite ?app_assoc; try reflexivity.
    destruct (a + b <? 0); rewrite ?app_assoc; reflexivity.
  - rewrite (IHl errors). destruct (SemanticAnalyzer.evaluate_node l []) as [vl n1|];
      [|reflexivity].
    rewrite (IHr (errors ++ n1)), (IHr n1).
    destruct (SemanticAnalyzer.evaluate_node r []) as [vr n2|]; [|reflexivity].
    destruct vl as [|a|s], vr as [|b|s']; rewrite ?app_assoc; try reflexivity.
    destruct (a * b <? 0); rewrite ?app_assoc; reflexivity.
  - rewrite (IHl errors). destruct (SemanticAnalyzer.evaluate_node l []) as [vl n1|];
      [|reflexivity].
    rewrite (IHr (errors ++ n1)), (IHr n1).
    destruct (SemanticAnalyzer.evaluate_node r []) as [vr n2|]; [|reflexivity].
    destruct vl as [|a|s], vr as [|b|s']; rewrite ?app_assoc; try reflexivity.
    + destruct (a <? 0); rewrite ?app_assoc; try reflexivity.
      destruct (b <? 0); rewrite ?app_assoc; try reflexivity.
      destruct (b >? 1000); rewrite ?app_assoc; try reflexivity.
      destruct (a ^ b <? 0); rewrite ?app_assoc; reflexivity.
    + destruct (a <? 0); rewrite ?app_assoc; reflexivity.
Qed.





(** * Further properties of the scanner *)

Lemma within_input_stepped isdigit int self self' :
  within_input self -> stepped isdigit int self self' -> within_input self'.
Proof.
  unfold within_input. intros [Ht He] Hstep.
  destruct Hstep; simpl; rewrite ?length_app; simpl; lia.
Qed.

(** The scanner when the loop of [scan] ends, with what the loop keeps. *)
Lemma scan_invariants (isdigit : char -> bool) (int : str -> option Z) (source : str) :
  exists self,
    Scanner.scan isdigit int source
    = Some (Scanner.append EOF NoneValue (Scanner.line self) (Scanner.col self) self)
    /\ Scanner.source self = source
    /\ Scanner.pos self = length source
    /\ ordered self /\ paired self /\ within_input self
    /\ natural_tokens (Scanner.tokens self).
Proof.
  destruct (scan_returns isdigit int source) as (self & Hloop & Hsrc & Hpos & Hscan).
  exists self. repeat (split; [assumption|]).
  split; [|split; [|split]].
  - apply (loop_invariant isdigit int ordered (fun s s' => ordered_stepped isdigit int s s')
             _ _ _) with (2 := Hloop).
    repeat split; simpl; constructor.
  - apply (loop_invariant isdigit int paired (fun s s' => paired_stepped isdigit int s s')
             _ _ _) with (2 := Hloop). reflexivity.
  - apply (loop_invariant isdigit int within_input (within_input_stepped isdigit int)
             _ _ _) with (2 := Hloop). split; simpl; lia.
  - apply (loop_invariant isdigit int (fun s => natural_tokens (Scanner.tokens s))
             (natural_tokens_stepped isdigit int) _ _ _) with (2 := Hloop).
    intros token [].
Qed.

(** X3. The scanner returns at least the [EOF] token and at most one token
    for each character of the source besides it, and at most one diagnostic
    for each character. *)
Theorem scan_output_bounds (isdigit : char -> bool) (int : str -> option Z) (source : str) :
  exists self,
    Scanner.scan isdigit int source = Some self
    /\ (1 <= length (Scanner.tokens self) <= length source + 1)%nat
    /\ (length (Scanner.errors self) <= length source)%nat.
Proof.
  destruct (scan_invariants isdigit int source)
    as (self & Hscan & _ & Hpos & _ & _ & [Ht He] & _).
  eexists. split; [exact Hscan|]. simpl. rewrite length_app. simpl. lia.
Qed.

(** * Further properties of the parser *)

(** X4. [Parser._peek] returns without changing the parser, and tells what
    [_advance] does next: the token it returns becomes the current token, and
    when it returns [None] the parser stays as it is. *)
Theorem peek_announces_advance (self : Parser.t) :
  exists next,
    Parser._peek self = Parser.Return next self
    /\ match next with
       | Some token =>
         Parser._advance self
         = Parser.Return (Some token)
             {| Parser.tokens := Parser.tokens self; Parser.pos := Parser.pos self + 1;
                Parser.current_token := Some token; Parser.errors := Parser.errors self |}
       | None => Parser._advance self = Parser.Return (Parser.current_token self) self
       end.
Proof.
  unfold Parser._peek, Parser._advance.
  destruct (Nat.ltb_spec (Parser.pos self) (length (Parser.tokens self))) as [Hlt|Hge].
  - destruct (nth_error (Parser.tokens self) (Parser.pos self)) as [token|] eqn:E.
    + exists (Some token). now split.
    + apply nth_error_None in E. lia.
  - exists None. now split.
Qed.

(** X5. [parse] records no diagnostic exactly when it returns a tree and has
    stopped at an [EOF] token; when it has built a tree and stopped at another
    token, it still returns the tree, with one diagnostic for that token. *)
Theorem parse_accepts (fuel : nat) (tokens : list Token.t) (ast : option AST)
  (self : Parser.t) :
  Parser.run_with fuel tokens = Parser.Return ast self ->
  (Parser.errors self = [] <->
   exists tree token,
     ast = Some tree /\ Parser.current_token self = Some token /\ Token.type token = EOF)
  /\ (forall tree token,
         ast = Some tree -> Parser.current_token self = Some token ->
         Token.type token <> EOF ->
         Parser.errors self = [report token (Parser.Trailing (Token.type token))]).
Proof.
  intros Hrun.
  destruct (run_outcome fuel tokens ast self Hrun) as (_ & token & Hc & _ & Hast).
  unfold trailing_reports in Hast.
  destruct (TokenType_eqb (Token.type token) EOF) eqn:Heof.
  - apply TokenType_eqb_eq in Heof. split.
    + split.
      * intros He. destruct ast as [tree|].
        -- exists tree, token. now repeat split.
        -- destruct Hast as (reports & Hf & Hr). rewrite Hr, app_nil_r in He. subst reports.
           destruct Hf as [[_ H]|[[_ H]|[[_ H]|(_ & _ & H)]]]; discriminate.
      * intros (tree & t & -> & _ & _). apply Hast.
    + intros tree t -> Ht Hne. congruence.
  - apply TokenType_eqb_neq in Heof. split.
    + split.
      * intros He. destruct ast as [tree|].
        -- destruct Hast as [_ Hr]. congruence.
        -- destruct Hast as (reports & _ & Hr). rewrite Hr in He.
           apply app_eq_nil in He as [_ He]. discriminate.
      * intros (tree & t & -> & Ht & Hty). congruence.
    + intros tree t -> Ht Hne. assert (t = token) by congruence. subst t. apply Hast.
Qed.

Lemma parse_accepts_witness :
  Parser.errors two_literals_parser
  = [report (Token.Token INT (IntValue 2) 1 3) (Parser.Trailing INT)].
Proof.
  apply (proj2 (parse_accepts 3 two_literals (Some (lit 1)) two_literals_parser eq_refl)
           (lit 1) (Token.Token INT (IntValue 2) 1 3));
    [reflexivity | reflexivity | discriminate].
Defined.

(** ** Positions *)

Lemma position_after_app (a b : str) (p : Z * Z) :
  position_after (a ++ b) p = position_after b (position_after a p).
Proof. revert p. induction a as [|ch a IH]; intros p; simpl; [reflexivity | apply IH]. Qed.

Lemma position_after_line (chars : str) (p : Z * Z) :
  forallb (fun ch => negb (ch =? 10)%N) chars = true ->
  position_after chars p = (fst p, snd p + Z.of_nat (length chars)).
Proof.
  revert p. induction chars as [|ch chars IH]; intros p H.
  - simpl. rewrite Z.add_0_r. now destruct p.
  - cbn [forallb] in H. apply andb_prop in H as [Hch Hrest].
    apply negb_true_iff in Hch. cbn [position_after]. rewrite Hch, (IH _ Hrest).
    cbn [fst snd length]. f_equal. lia.
Qed.

Lemma firstn_chunk {A} (l chunk rest : list A) (n : nat) :
  (n <= length l)%nat -> skipn n l = chunk ++ rest ->
  firstn (n + length chunk) l = firstn n l ++ chunk.
Proof.
  intros Hn Hskip.
  rewrite <- (firstn_skipn n l) at 1. rewrite Hskip.
  replace n with (length (firstn n l)) at 1 by (rewrite length_firstn; lia).
  rewrite firstn_app_2. f_equal.
  rewrite firstn_app, firstn_all, Nat.sub_diag. simpl. apply app_nil_r.
Qed.

Lemma position_at_chunk (source chunk rest : str) (n : nat) :
  (n <= length source)%nat -> skipn n source = chunk ++ rest ->
  position_at source (n + length chunk) = position_after chunk (position_at source n).
Proof.
  intros Hn Hskip. unfold position_at.
  now rewrite (firstn_chunk source chunk rest n Hn Hskip), position_after_app.
Qed.

(** The scanner after it has read a chunk without a newline and appended
    tokens and diagnostics at the position where the chunk starts. *)
Lemma tracked_chunk (isdigit : char -> bool) (self self' : Scanner.t)
  (ch : char) (chunk rest : str) (tokens : list Token.t) (errors : list Scanner.Error) :
  tracked isdigit self ->
  nth_error (Scanner.source self) (Scanner.pos self) = Some ch ->
  skipn (Scanner.pos self) (Scanner.source self) = chunk ++ rest ->
  forallb (fun ch => negb (ch =? 10)%N) chunk = true ->
  Scanner.source self' = Scanner.source self ->
  Scanner.pos self' = (Scanner.pos self + length chunk)%nat ->
  Scanner.line self' = Scanner.line self ->
  Scanner.col self' = Scanner.col self + Z.of_nat (length chunk) ->
  Scanner.tokens self' = Scanner.tokens self ++ tokens ->
  Scanner.errors self' = Scanner.errors self ++ errors ->
  Forall (fun token => token_position token = (Scanner.line self, Scanner.col self)
                       /\ begins isdigit (Token.type token) ch = true) tokens ->
  Forall (fun e => error_position e = (Scanner.line self, Scanner.col self)) errors ->
  tracked isdigit self'.
Proof.
  intros (Hpos & Htok & Herr) Hch Hskip Hline Hsrc Hp Hl Hc Ht He Htokens Herrors.
  assert (Hlt : (Scanner.pos self < length (Scanner.source self))%nat).
  { apply nth_error_Some. congruence. }
  unfold tracked. rewrite Hsrc, Hp, Hl, Hc, Ht, He. split; [|split].
  - rewrite (position_at_chunk _ chunk rest) by (assumption || lia).
    rewrite <- Hpos. now rewrite position_after_line.
  - apply Forall_app. split; [assumption|].
    eapply Forall_impl; [|exact Htokens]. intros token [Hat Hbegins].
    exists (Scanner.pos self), ch. repeat split; try assumption. congruence.
  - apply Forall_app. split; [assumption|].
    eapply Forall_impl; [|exact Herrors]. intros e Hat.
    exists (Scanner.pos self). split; [assumption | congruence].
Qed.

Lemma tracked_step (isdigit : char -> bool) (int : str -> option Z) (self : Scanner.t) :
  isdigit 10%N = false ->
  tracked isdigit self ->
  (Scanner.pos self < length (Scanner.source self))%nat ->
  tracked isdigit (Scanner.step isdigit int self).
Proof.
  intros Hnl Htracked Hlt. unfold Scanner.step.
  destruct (nth_error (Scanner.source self) (Scanner.pos self)) as [ch|] eqn:Hch.
  2:{ apply nth_error_None in Hch. lia. }
  pose proof (nth_error_skipn_cons _ _ _ Hch) as Hskip.
  assert (Hone : forall self' tokens errors,
             (ch =? 10)%N = false ->
             Scanner.source self' = Scanner.source self ->
             Scanner.pos self' = (Scanner.pos self + 1)%nat ->
             Scanner.line self' = Scanner.line self ->
             Scanner.col self' = Scanner.col self + 1 ->
             Scanner.tokens self' = Scanner.tokens self ++ tokens ->
             Scanner.errors self' = Scanner.errors self ++ errors ->
             Forall (fun token => token_position token = (Scanner.line self, Scanner.col self)
                                  /\ begins isdigit (Token.type token) ch = true) tokens ->
             Forall (fun e => error_position e = (Scanner.line self, Scanner.col self)) errors ->
             tracked isdigit self').
  { intros self' tokens errors Hne. intros.
    apply (tracked_chunk isdigit self self' ch [ch] (skipn (S (Scanner.pos self))
             (Scanner.source self)) tokens errors); try assumption.
    simpl. now rewrite Hne. }
  destruct ((ch =? 32)%N || (ch =? 9)%N) eqn:Hblank.
  { apply (Hone _ [] []); try reflexivity; try constructor; simpl; try now rewrite app_nil_r.
    apply orb_prop in Hblank as [H|H]; apply N.eqb_eq in H; now subst ch. }
  destruct (ch =? 10)%N eqn:Hnewline.
  { destruct Htracked as (Hpos & Htok & Herr). split; [|split]; simpl; try assumption.
    replace (Scanner.pos self + 1)%nat with (Scanner.pos self + length [ch])%nat by reflexivity.
    rewrite (position_at_chunk _ [ch] (skipn (S (Scanner.pos self)) (Scanner.source self)))
      by (assumption || lia).
    rewrite <- Hpos. simpl. now rewrite Hnewline. }
  destruct (isdigit ch) eqn:Hd.
  { set (num_str := Scanner.digit_run isdigit (skipn (Scanner.pos self) (Scanner.source self))).
    destruct (digit_run_prefix isdigit (skipn (Scanner.pos self) (Scanner.source self)))
      as [rest Hrun]. fold num_str in Hrun.
    assert (Hline : forallb (fun c => negb (c =? 10)%N) num_str = true).
    { apply forallb_forall. intros c Hc.
      pose proof (digit_run_all isdigit (skipn (Scanner.pos self) (Scanner.source self))) as Hall.
      rewrite forallb_forall in Hall. specialize (Hall c Hc).
      destruct (N.eqb_spec c 10); [subst c; congruence | reflexivity]. }
    destruct (int num_str) as [value|].
    - destruct (value <? 0).
      + apply (tracked_chunk isdigit self _ ch num_str rest
                 [Token.Token ERROR (IntValue value) (Scanner.line self) (Scanner.col self)]
                 [{| Scanner.message := Scanner.NegativeNumber value;
                     Scanner.at_line := Scanner.line self;
                     Scanner.at_col := Scanner.col self |}]);
          try assumption; try reflexivity; repeat constructor.
      + apply (tracked_chunk isdigit self _ ch num_str rest
                 [Token.Token INT (IntValue value) (Scanner.line self) (Scanner.col self)] []);
          try assumption; try reflexivity; try (simpl; now rewrite app_nil_r);
          repeat constructor. exact Hd.
    - apply (tracked_chunk isdigit self _ ch num_str rest
               [Token.Token ERROR (StrValue num_str) (Scanner.line self) (Scanner.col self)]
               [{| Scanner.message := Scanner.InvalidNumber num_str;
                   Scanner.at_line := Scanner.line self;
                   Scanner.at_col := Scanner.col self |}]);
        try assumption; try reflexivity; repeat constructor. }
  destruct (ch =? 112)%N eqn:Hp.
  { destruct ((Scanner.pos self + 2 <? length (Scanner.source self))%nat
              && str_eqb (firstn 3 (skipn (Scanner.pos self) (Scanner.source self)))
                   [112; 111; 119]%N) eqn:Hpow.
    - apply andb_prop in Hpow as [_ Hpow]. unfold str_eqb in Hpow.
      destruct (list_eq_dec N.eq_dec
                  (firstn 3 (skipn (Scanner.pos self) (Scanner.source self)))
                  [112; 111; 119]%N) as [E|]; [|discriminate].
      apply (tracked_chunk isdigit self _ ch [112; 111; 119]%N
               (skipn 3 (skipn (Scanner.pos self) (Scanner.source self)))
               [Token.Token POW NoneValue (Scanner.line self) (Scanner.col self)] []);
        try assumption; try reflexivity; try (simpl; now rewrite app_nil_r).
      + rewrite <- E. symmetry. apply firstn_skipn.
      + repeat constructor. exact Hp.
      + constructor.
    - apply (Hone _ [Token.Token ERROR (StrValue [ch]) (Scanner.line self) (Scanner.col self)]
               [{| Scanner.message := Scanner.UnknownIdentifier ch;
                   Scanner.at_line := Scanner.line self;
                   Scanner.at_col := Scanner.col self |}]);
        try reflexivity; repeat constructor. }
  destruct (ch =? 40)%N eqn:H40.
  { apply (Hone _ [Token.Token LPAREN NoneValue (Scanner.line self) (Scanner.col self)] []);
      try reflexivity; try (simpl; now rewrite app_nil_r); repeat constructor. exact H40. }
  destruct (ch =? 41)%N eqn:H41.
  { apply (Hone _ [Token.Token RPAREN NoneValue (Scanner.line self) (Scanner.col self)] []);
      try reflexivity; try (simpl; now rewrite app_nil_r); repeat constructor. exact H41. }
  destruct (ch =? 44)%N eqn:H44.
  { apply (Hone _ [Token.Token COMMA NoneValue (Scanner.line self) (Scanner.col self)] []);
      try reflexivity; try (simpl; now rewrite app_nil_r); repeat constructor. exact H44. }
  destruct (ch =? 43)%N eqn:H43.
  { apply (Hone _ [Token.Token PLUS NoneValue (Scanner.line self) (Scanner.col self)] []);
      try reflexivity; try (simpl; now rewrite app_nil_r); repeat constructor. exact H43. }
  destruct (ch =? 42)%N eqn:H42.
  { apply (Hone _ [Token.Token MULT NoneValue (Scanner.line self) (Scanner.col self)] []);
      try reflexivity; try (simpl; now rewrite app_nil_r); repeat constructor. exact H42. }
  apply (Hone _ [Token.Token ERROR (StrValue [ch]) (Scanner.line self) (Scanner.col self)]
           [{| Scanner.message := Scanner.UnknownSymbol ch;
               Scanner.at_line := Scanner.line self;
               Scanner.at_col := Scanner.col self |}]);
    try reflexivity; repeat constructor.
Qed.

Lemma loop_keeps (isdigit : char -> bool) (int : str -> option Z) (P : Scanner.t -> Prop) :
  (forall self,
      P self -> (Scanner.pos self < length (Scanner.source self))%nat ->
      P (Scanner.step isdigit int self)) ->
  forall fuel self self', P self -> Scanner.loop isdigit int fuel self = Some self' -> P self'.
Proof.
  intros Hstep. induction fuel as [|fuel IH]; intros self self' HP Hloop; simpl in Hloop;
    destruct (Nat.ltb_spec (Scanner.pos self) (length (Scanner.source self))) as [Hlt|];
    try discriminate; try (now inversion Hloop; subst).
  apply (IH (Scanner.step isdigit int self)); [now apply Hstep | assumption].
Qed.

(** X6. Every token that [scan] returns lies at the line and column of a
    character of the source that starts a token of its type, the [EOF] token
    lies just after the last character, and every diagnostic lies at the
    line and column of a character of the source (lines and columns counted
    from one, a newline starting a line). The digits must not include the
    newline. *)
Theorem scan_positions (isdigit : char -> bool) (int : str -> option Z) (source : str) :
  isdigit 10%N = false ->
  exists self,
    Scanner.scan isdigit int source = Some self
    /\ (forall token,
           In token (Scanner.tokens self) ->
           (Token.type token = EOF
            /\ token_position token = position_at source (length source))
           \/ token_in_source isdigit source token)
    /\ (forall e, In e (Scanner.errors self) -> error_in_source source e).
Proof.
  intros Hnl.
  destruct (scan_returns isdigit int source) as (self & Hloop & Hsrc & Hpos & Hscan).
  assert (Ht : tracked isdigit self).
  { apply (loop_keeps isdigit int (tracked isdigit)
             (fun s => tracked_step isdigit int s Hnl) _ _ _) with (2 := Hloop).
    repeat split; simpl; constructor. }
  destruct Ht as (Hat & Htok & Herr). rewrite Hsrc, Hpos in *.
  eexists. split; [exact Hscan|]. simpl. split.
  - intros token Hin. apply in_app_or in Hin as [Hin|[<-|[]]].
    + right. rewrite Forall_forall in Htok. now apply Htok.
    + left. split; [reflexivity | exact Hat].
  - rewrite Forall_forall in Herr. exact Herr.
Qed.

Lemma scan_positions_witness :
  exists self,
    Scanner.scan ascii_isdigit ascii_int two_lines = Some self
    /\ (forall token,
           In token (Scanner.tokens self) ->
           (Token.type token = EOF
            /\ token_position token = position_at two_lines (length two_lines))
           \/ token_in_source ascii_isdigit two_lines token)
    /\ (forall e, In e (Scanner.errors self) -> error_in_source two_lines e).
Proof.
  apply (scan_positions ascii_isdigit ascii_int two_lines). reflexivity.
Defined.

(** ** The tokens that a tree is read from *)

Lemma spells_literal (token : Token.t) :
  Token.type token = INT -> spells [token] (IntLiteral (Token.value token)).
Proof. intros H. unfold spells, is_int. simpl. now rewrite H. Qed.

Lemma spells_binary (mk : AST -> AST -> AST) (op : TokenType) l r tl tr operator :
  flatten (mk l r) = flatten l ++ [op] ++ flatten r ->
  literals (mk l r) = literals l ++ literals r ->
  op <> INT ->
  spells tl l -> spells tr r -> Token.type operator = op ->
  spells ((tl ++ [operator]) ++ tr) (mk l r).
Proof.
  intros Hf Hl Hop [Hl1 Hl2] [Hr1 Hr2] Hty. unfold spells.
  rewrite Hf, Hl, !map_app, !filter_app, !map_app, Hl1, Hr1, Hl2, Hr2. simpl.
  unfold is_int. rewrite Hty.
  apply TokenType_eqb_neq in Hop. rewrite Hop. simpl.
  rewrite <- !app_assoc. simpl. now split.
Qed.

Lemma spells_pow arg1 arg2 t1 t2 p lp c rp :
  Token.type p = POW -> Token.type lp = LPAREN -> Token.type c = COMMA ->
  Token.type rp = RPAREN ->
  spells t1 arg1 -> spells t2 arg2 ->
  spells (p :: lp :: t1 ++ c :: t2 ++ [rp]) (Pow arg1 arg2).
Proof.
  intros Hp Hlp Hc Hrp [H11 H12] [H21 H22].
  assert (Ip : is_int p = false) by (unfold is_int; now rewrite Hp).
  assert (Ilp : is_int lp = false) by (unfold is_int; now rewrite Hlp).
  assert (Ic : is_int c = false) by (unfold is_int; now rewrite Hc).
  assert (Irp : is_int rp = false) by (unfold is_int; now rewrite Hrp).
  unfold spells. split.
  - cbn [map flatten]. rewrite Hp, Hlp, map_app. cbn [map]. rewrite map_app. cbn [map].
    rewrite Hc, Hrp, H11, H21. reflexivity.
  - cbn [filter literals]. rewrite Ip, Ilp, filter_app. cbn [filter].
    rewrite Ic, filter_app. cbn [filter]. rewrite Irp, app_nil_r, map_app, H12, H22.
    reflexivity.
Qed.

(** Past a token that is not [EOF], [_advance] drops the first token of the
    view. *)
Lemma wp_advance_view self token (Q : option Token.t -> Parser.t -> Prop) :
  well_formed self ->
  Parser.current_token self = Some token -> Token.type token <> EOF ->
  (forall r self',
      well_formed self' -> view self = token :: view self' ->
      Parser.tokens self' = Parser.tokens self ->
      Parser.errors self' = Parser.errors self -> Q r self') ->
  wp Parser._advance self Q.
Proof.
  intros Hwf Htoken Hty HQ.
  pose proof Hwf as (Hpos & Hcur & eof & Hlast & Heof).
  assert (Hlt : (Parser.pos self < length (Parser.tokens self))%nat).
  { destruct (Nat.eq_dec (Parser.pos self) (length (Parser.tokens self))) as [E|E]; [|lia].
    rewrite Hcur, E, Hlast in Htoken. congruence. }
  unfold wp, Parser._advance.
  destruct (Nat.ltb_spec (Parser.pos self) (length (Parser.tokens self))); [|lia].
  destruct (nth_error (Parser.tokens self) (Parser.pos self)) as [next|] eqn:En.
  2:{ apply nth_error_None in En. lia. }
  eexists; eexists. split; [reflexivity|]. apply HQ; try reflexivity.
  - unfold well_formed.
    cbn [Parser.tokens Parser.pos Parser.current_token Parser.errors].
    split; [lia|]. split.
    + rewrite <- En. f_equal. lia.
    + exists eof. now split.
  - unfold view. cbn [Parser.tokens Parser.pos].
    rewrite Hcur in Htoken.
    rewrite (nth_error_skipn_cons _ _ _ Htoken). do 2 f_equal. lia.
Qed.

Lemma wp_match_view expected self (Q : option Token.t -> Parser.t -> Prop) :
  well_formed self -> expected <> EOF ->
  (forall token self',
      Token.type token = expected ->
      well_formed self' -> view self = token :: view self' ->
      Parser.tokens self' = Parser.tokens self ->
      Parser.errors self' = Parser.errors self ->
      Q (Some token) self') ->
  (forall token,
      Parser.current_token self = Some token -> Token.type token <> expected ->
      Q None (with_error self (report token (Parser.Expected expected (Token.type token))))) ->
  wp (Parser._match expected) self Q.
Proof.
  intros Hwf Hexp Hok Hfail. unfold Parser._match.
  apply wp_bind, wp_current; [assumption|]. intros cur Hcur.
  destruct (TokenType_eqb (Token.type cur) expected) eqn:Hty.
  - apply TokenType_eqb_eq in Hty.
    apply wp_bind, wp_current; [assumption|]. intros token Htoken.
    assert (token = cur) by congruence. subst token.
    apply wp_bind, (wp_advance_view self cur); try assumption; [congruence|].
    intros r self' Hwf' Hview Ht He. apply wp_ret. now apply Hok.
  - apply TokenType_eqb_neq in Hty.
    apply wp_bind, wp_current; [assumption|]. intros token Htoken.
    assert (token = cur) by congruence. subst token.
    apply wp_bind, wp_add_error, wp_ret. now apply Hfail.
Qed.

Lemma wp_sum_tail_view self (Q : option TokenType -> Parser.t -> Prop) :
  well_formed self ->
  (forall operator self',
      Token.type operator = PLUS ->
      well_formed self' -> view self = operator :: view self' ->
      Parser.tokens self' = Parser.tokens self ->
      Parser.errors self' = Parser.errors self -> Q (Some PLUS) self') ->
  (forall token, Parser.current_token self = Some token -> Token.type token <> PLUS ->
                 Q None self) ->
  wp Parser.parse_sum_tail self Q.
Proof.
  intros Hwf Hsome Hnone. unfold Parser.parse_sum_tail.
  apply wp_bind, wp_current; [assumption|]. intros cur Hcur.
  destruct (TokenType_eqb (Token.type cur) PLUS) eqn:Hty.
  - apply wp_bind, wp_match_view; [assumption | discriminate | |].
    + intros token self' Htype Hwf' Hview Ht He. apply wp_ret. now apply (Hsome token).
    + intros token Htoken Hne. apply TokenType_eqb_eq in Hty. congruence.
  - apply wp_ret. apply TokenType_eqb_neq in Hty. now apply (Hnone cur).
Qed.

Lemma wp_prod_tail_view self (Q : option TokenType -> Parser.t -> Prop) :
  well_formed self ->
  (forall operator self',
      Token.type operator = MULT ->
      well_formed self' -> view self = operator :: view self' ->
      Parser.tokens self' = Parser.tokens self ->
      Parser.errors self' = Parser.errors self -> Q (Some MULT) self') ->
  (forall token, Parser.current_token self = Some token -> Token.type token <> MULT ->
                 Q None self) ->
  wp Parser.parse_prod_tail self Q.
Proof.
  intros Hwf Hsome Hnone. unfold Parser.parse_prod_tail.
  apply wp_bind, wp_current; [assumption|]. intros cur Hcur.
  destruct (TokenType_eqb (Token.type cur) MULT) eqn:Hty.
  - apply wp_bind, wp_match_view; [assumption | discriminate | |].
    + intros token self' Htype Hwf' Hview Ht He. apply wp_ret. now apply (Hsome token).
    + intros token Htoken Hne. apply TokenType_eqb_eq in Hty. congruence.
  - apply wp_ret. apply TokenType_eqb_neq in Hty. now apply (Hnone cur).
Qed.

(** The lengths that an equation between views gives. *)
Ltac view_lengths :=
  repeat match goal with
         | H : view ?a = _ |- _ =>
           let L := fresh "Hlen" in
           pose proof (f_equal (@length Token.t) H) as L;
           rewrite ?length_app in L; cbn [length] in L;
           revert H
         end;
  intros.

Lemma parsed_none self self' :
  well_formed self' -> Parser.tokens self' = Parser.tokens self -> parsed self None self'.
Proof. intros H1 H2. split; [exact H1 | split; [exact H2 | exact I]]. Qed.

Lemma parse_atom_parses (bound : nat) (parse_expr : Parser.M (option AST)) :
  parses bound parse_expr -> parses (S bound) (Parser.parse_atom parse_expr).
Proof.
  intros Hexpr self Hwf Hbound. unfold Parser.parse_atom.
  apply wp_bind, wp_current; [assumption|]. intros cur Hcur.
  destruct (TokenType_eqb (Token.type cur) INT) eqn:Hint.
  { apply wp_bind, wp_match_view; [assumption | discriminate | |].
    - intros token s1 Hty Hwf1 Hv1 Ht1 He1. apply wp_ret.
      split; [assumption|]. split; [assumption|]. split; [assumption|].
      exists [token]. split; [discriminate|]. split; [exact Hv1|].
      now apply spells_literal.
    - intros token Htoken Hne. apply TokenType_eqb_eq in Hint. congruence. }
  destruct (TokenType_eqb (Token.type cur) POW) eqn:Hpow.
  { apply wp_bind, wp_match_view; [assumption | discriminate | |].
    2:{ intros token Htoken Hne. apply TokenType_eqb_eq in Hpow. congruence. }
    intros p s1 Hp Hwf1 Hv1 Ht1 He1.
    apply wp_bind, wp_match_view; [assumption | discriminate | |].
    2:{ intros token Htoken Hne. apply wp_ret. now apply parsed_none. }
    intros lp s2 Hlp Hwf2 Hv2 Ht2 He2.
    apply wp_bind. eapply wp_conseq; [apply Hexpr; [assumption | view_lengths; lia]|].
    intros [arg1|] s3 (Hwf3 & Ht3 & Hr3).
    2:{ apply wp_ret. apply parsed_none; [assumption | congruence]. }
    destruct Hr3 as (He3 & t1 & Hne1 & Hv3 & Hs1).
    apply wp_bind, wp_match_view; [assumption | discriminate | |].
    2:{ intros token Htoken Hne.
        apply wp_bind, wp_current; [exact Hwf3|]. intros got Hgot.
        apply wp_bind, wp_add_error, wp_ret.
        apply parsed_none; [exact Hwf3 | simpl; congruence]. }
    intros c s4 Hc Hwf4 Hv4 Ht4 He4.
    apply wp_bind. eapply wp_conseq; [apply Hexpr; [assumption | view_lengths; lia]|].
    intros [arg2|] s5 (Hwf5 & Ht5 & Hr5).
    2:{ apply wp_ret. apply parsed_none; [assumption | congruence]. }
    destruct Hr5 as (He5 & t2 & Hne2 & Hv5 & Hs2).
    apply wp_bind, wp_match_view; [assumption | discriminate | |].
    2:{ intros token Htoken Hne.
        apply wp_bind, wp_current; [exact Hwf5|]. intros got Hgot.
        apply wp_bind, wp_add_error, wp_ret.
        apply parsed_none; [exact Hwf5 | simpl; congruence]. }
    intros rp s6 Hrp Hwf6 Hv6 Ht6 He6. apply wp_ret.
    split; [assumption|]. split; [congruence|]. split; [congruence|].
    exists (p :: lp :: t1 ++ c :: t2 ++ [rp]). split; [discriminate|]. split.
    - rewrite Hv1, Hv2, Hv3, Hv4, Hv5, Hv6. simpl. rewrite <- !app_assoc. simpl.
      now rewrite <- !app_assoc.
    - now apply spells_pow. }
  apply wp_bind, wp_current; [assumption|]. intros got Hgot.
  apply wp_bind, wp_add_error, wp_ret. now apply parsed_none.
Qed.

Lemma continued_none before self self' :
  well_formed self' -> Parser.tokens self' = Parser.tokens self ->
  continued before self None self'.
Proof. intros H1 H2. split; [exact H1 | split; [exact H2 | exact I]]. Qed.

Lemma continued_stop op before node self :
  well_formed self -> pending op before node None ->
  continued before self (Some node) self.
Proof.
  intros Hwf Hp. split; [exact Hwf|]. split; [reflexivity|]. split; [reflexivity|].
  exists []. split; [reflexivity|]. now rewrite app_nil_r.
Qed.

Lemma continued_after before tokens self s r self' :
  view self = tokens ++ view s ->
  Parser.tokens s = Parser.tokens self -> Parser.errors s = Parser.errors self ->
  continued (before ++ tokens) s r self' -> continued before self r self'.
Proof.
  intros Hv Ht He (Hwf & Ht' & Hr). split; [exact Hwf|]. split; [congruence|].
  destruct r as [ast|]; [|exact I].
  destruct Hr as (He' & more & Hv' & Hs). split; [congruence|].
  exists (tokens ++ more). split.
  - now rewrite Hv, Hv', app_assoc.
  - now rewrite app_assoc.
Qed.

Section Spelling.

Variable parse_expr : Parser.M (option AST).
Variables bound fuel : nat.
Hypothesis parse_expr_parses : parses bound parse_expr.
Hypothesis fuel_covers_bound : (bound <= fuel)%nat.

Lemma prod_while_parses n node prod_tail_node self before :
  well_formed self -> (length (view self) <= S bound)%nat ->
  (prod_tail_node <> None -> (length (view self) <= n)%nat) ->
  pending MULT before node prod_tail_node ->
  wp (Parser.prod_while parse_expr n node prod_tail_node) self (continued before self).
Proof.
  revert node prod_tail_node self before.
  induction n as [|n IH]; intros node [op|] self before Hwf Hbound Hn Hp; simpl;
    try (apply wp_ret; now apply (continued_stop MULT)).
  - assert (length (view self) <= 0)%nat by (apply Hn; discriminate).
    destruct (well_formed_current self Hwf) as [token Htoken].
    destruct Hwf as (Hpos & Hcur & _). unfold view in H.
    rewrite length_skipn in H. lia.
  - assert (Hlen : (length (view self) <= S n)%nat) by (apply Hn; discriminate).
    destruct Hp as (-> & operand & operator & -> & Hnode & Hop). cbn [TokenType_eqb].
    apply wp_bind.
    eapply wp_conseq; [apply (parse_atom_parses bound parse_expr); assumption|].
    intros [right'|] s1 (Hwf1 & Ht1 & Hr1).
    2:{ apply wp_ret. now apply continued_none. }
    destruct Hr1 as (He1 & tr & Hne & Hv1 & Hright).
    assert (Hnext : spells ((operand ++ [operator]) ++ tr) (Mul node right')).
    { apply (spells_binary Mul MULT); try assumption; try reflexivity. discriminate. }
    assert (Hshort : (length (view s1) < length (view self))%nat).
    { view_lengths. destruct tr; [contradiction | simpl in *; lia]. }
    apply wp_bind, wp_prod_tail_view; [assumption | |].
    + intros star s2 Hstar Hwf2 Hv2 Ht2 He2.
      eapply wp_conseq;
        [apply (IH _ _ s2 (((operand ++ [operator]) ++ tr) ++ [star]));
         [assumption | view_lengths; lia | intros _; view_lengths; lia |]|].
      * split; [reflexivity|]. now exists ((operand ++ [operator]) ++ tr), star.
      * intros r self' Hc.
        apply (continued_after _ (tr ++ [star]) self s2); try congruence.
        -- rewrite Hv1, Hv2, <- app_assoc. reflexivity.
        -- now rewrite app_assoc.
    + intros token Htoken Hne'.
      eapply wp_conseq;
        [apply (IH _ None s1 ((operand ++ [operator]) ++ tr));
         [assumption | lia | congruence | exact Hnext]|].
      intros r self' Hc. now apply (continued_after _ tr self s1).
Qed.

Lemma parse_prod_parses : parses (S bound) (Parser.parse_prod parse_expr fuel).
Proof.
  intros self Hwf Hbound. unfold Parser.parse_prod.
  apply wp_bind.
  eapply wp_conseq; [apply (parse_atom_parses bound parse_expr); assumption|].
  intros [node|] s1 (Hwf1 & Ht1 & Hr1).
  2:{ apply wp_ret. now apply parsed_none. }
  destruct Hr1 as (He1 & tn & Hne & Hv1 & Hnode).
  assert (Hshort : (length (view s1) < length (view self))%nat).
  { view_lengths. destruct tn; [contradiction | simpl in *; lia]. }
  apply wp_bind, wp_prod_tail_view; [assumption | |].
  - intros star s2 Hstar Hwf2 Hv2 Ht2 He2.
    eapply wp_conseq;
      [apply (prod_while_parses fuel node (Some MULT) s2 (tn ++ [star]));
       [assumption | view_lengths; lia | intros _; view_lengths; lia |]|].
    + split; [reflexivity|]. now exists tn, star.
    + intros r self' (Hwf' & Ht' & Hr). split; [exact Hwf'|]. split; [congruence|].
      destruct r as [ast|]; [|exact I].
      destruct Hr as (He' & more & Hv' & Hs). split; [congruence|].
      exists ((tn ++ [star]) ++ more). split; [now destruct tn|]. split; [|exact Hs].
      rewrite Hv1, Hv2, Hv', <- !app_assoc. reflexivity.
  - intros token Htoken Hne'. apply wp_ret.
    split; [exact Hwf1|]. split; [exact Ht1|]. split; [exact He1|].
    exists tn. split; [assumption|]. split; assumption.
Qed.

Lemma sum_while_parses n node sum_tail_node self before :
  well_formed self -> (length (view self) <= S bound)%nat ->
  (sum_tail_node <> None -> (length (view self) <= n)%nat) ->
  pending PLUS before node sum_tail_node ->
  wp (Parser.sum_while parse_expr fuel n node sum_tail_node) self (continued before self).
Proof.
  revert node sum_tail_node self before.
  induction n as [|n IH]; intros node [op|] self before Hwf Hbound Hn Hp; simpl;
    try (apply wp_ret; now apply (continued_stop PLUS)).
  - assert (length (view self) <= 0)%nat by (apply Hn; discriminate).
    destruct (well_formed_current self Hwf) as [token Htoken].
    destruct Hwf as (Hpos & Hcur & _). unfold view in H.
    rewrite length_skipn in H. lia.
  - assert (Hlen : (length (view self) <= S n)%nat) by (apply Hn; discriminate).
    destruct Hp as (-> & operand & operator & -> & Hnode & Hop). cbn [TokenType_eqb].
    apply wp_bind.
    eapply wp_conseq; [apply parse_prod_parses; assumption|].
    intros [right'|] s1 (Hwf1 & Ht1 & Hr1).
    2:{ apply wp_ret. now apply continued_none. }
    destruct Hr1 as (He1 & tr & Hne & Hv1 & Hright).
    assert (Hnext : spells ((operand ++ [operator]) ++ tr) (Add node right')).
    { apply (spells_binary Add PLUS); try assumption; try reflexivity. discriminate. }
    assert (Hshort : (length (view s1) < length (view self))%nat).
    { view_lengths. destruct tr; [contradiction | simpl in *; lia]. }
    apply wp_bind, wp_sum_tail_view; [assumption | |].
    + intros plus s2 Hplus Hwf2 Hv2 Ht2 He2.
      eapply wp_conseq;
        [apply (IH _ _ s2 (((operand ++ [operator]) ++ tr) ++ [plus]));
         [assumption | view_lengths; lia | intros _; view_lengths; lia |]|].
      * split; [reflexivity|]. now exists ((operand ++ [operator]) ++ tr), plus.
      * intros r self' Hc.
        apply (continued_after _ (tr ++ [plus]) self s2); try congruence.
        -- rewrite Hv1, Hv2, <- app_assoc. reflexivity.
        -- now rewrite app_assoc.
    + intros token Htoken Hne'.
      eapply wp_conseq;
        [apply (IH _ None s1 ((operand ++ [operator]) ++ tr));
         [assumption | lia | congruence | exact Hnext]|].
      intros r self' Hc. now apply (continued_after _ tr self s1).
Qed.

Lemma parse_sum_parses : parses (S bound) (Parser.parse_sum parse_expr fuel).
Proof.
  intros self Hwf Hbound. unfold Parser.parse_sum.
  apply wp_bind.
  eapply wp_conseq; [apply parse_prod_parses; assumption|].
  intros [node|] s1 (Hwf1 & Ht1 & Hr1).
  2:{ apply wp_ret. now apply parsed_none. }
  destruct Hr1 as (He1 & tn & Hne & Hv1 & Hnode).
  assert (Hshort : (length (view s1) < length (view self))%nat).
  { view_lengths. destruct tn; [contradiction | simpl in *; lia]. }
  apply wp_bind, wp_sum_tail_view; [assumption | |].
  - intros plus s2 Hplus Hwf2 Hv2 Ht2 He2.
    eapply wp_conseq;
      [apply (sum_while_parses fuel node (Some PLUS) s2 (tn ++ [plus]));
       [assumption | view_lengths; lia | intros _; view_lengths; lia |]|].
    + split; [reflexivity|]. now exists tn, plus.
    + intros r self' (Hwf' & Ht' & Hr). split; [exact Hwf'|]. split; [congruence|].
      destruct r as [ast|]; [|exact I].
      destruct Hr as (He' & more & Hv' & Hs). split; [congruence|].
      exists ((tn ++ [plus]) ++ more). split; [now destruct tn|]. split; [|exact Hs].
      rewrite Hv1, Hv2, Hv', <- !app_assoc. reflexivity.
  - intros token Htoken Hne'. apply wp_ret.
    split; [exact Hwf1|]. split; [exact Ht1|]. split; [exact He1|].
    exists tn. split; [assumption|]. split; assumption.
Qed.

End Spelling.

Lemma parse_expr_parses (fuel : nat) : parses fuel (Parser.parse_expr fuel).
Proof.
  induction fuel as [|fuel IH].
  - intros self Hwf Hlen.
    destruct Hwf as (Hpos & Hcur & _). unfold view in Hlen.
    rewrite length_skipn in Hlen. lia.
  - simpl. apply (parse_sum_parses (Parser.parse_expr fuel) fuel fuel IH). lia.
Qed.

Lemma view_current self token :
  well_formed self -> Parser.current_token self = Some token ->
  exists rest, view self = token :: rest.
Proof.
  intros (Hpos & Hcur & _) Htoken. rewrite Hcur in Htoken. unfold view.
  rewrite (nth_error_skipn_cons _ _ _ Htoken). eauto.
Qed.

Lemma init_cons (token : Token.t) (rest : list Token.t) :
  Parser.init (token :: rest)
  = Parser.Return (Some token)
      {| Parser.tokens := token :: rest; Parser.pos := 1;
         Parser.current_token := Some token; Parser.errors := [] |}.
Proof. reflexivity. Qed.

Lemma ends_at_eof (front toks rest : list Token.t) (eof cur : Token.t) :
  front ++ [eof] = toks ++ cur :: rest ->
  Forall (fun token => Token.type token <> EOF) front ->
  Token.type cur = EOF ->
  toks = front /\ rest = [].
Proof.
  revert toks. induction front as [|t front IH]; intros toks E Hfront Hcur.
  - destruct toks as [|t' toks]; simpl in E.
    + inversion E. now split.
    + inversion E as [[Ht E']]. destruct toks; discriminate.
  - inversion Hfront as [|? ? Ht Hrest]; subst.
    destruct toks as [|t' toks]; simpl in E; inversion E as [[Ht' E']]; subst.
    + contradiction.
    + destruct (IH toks E' Hrest Hcur) as [-> ->]. now split.
Qed.

Lemma flatten_types (ast : AST) (type : TokenType) :
  In type (flatten ast) -> type <> ERROR /\ type <> EOF.
Proof.
  induction ast as [v|l IHl r IHr|l IHl r IHr|l IHl r IHr]; simpl; intros H.
  - destruct H as [<-|[]]. split; discriminate.
  - apply in_app_or in H as [H|[<-|H]]; auto. split; discriminate.
  - apply in_app_or in H as [H|[<-|H]]; auto. split; discriminate.
  - destruct H as [<-|[<-|H]]; try (split; discriminate).
    apply in_app_or in H as [H|[<-|H]]; auto; try (split; discriminate).
    apply in_app_or in H as [H|[<-|[]]]; auto. split; discriminate.
Qed.

(** The tokens before the [EOF] spell the tree of a parse without
    diagnostics. *)
Lemma accepted_tokens (fuel : nat) (front : list Token.t) (eof : Token.t)
  (ast : option AST) (self : Parser.t) :
  Token.type eof = EOF ->
  Forall (fun token => Token.type token <> EOF) front ->
  Parser.run_with fuel (front ++ [eof]) = Parser.Return ast self ->
  Parser.errors self = [] ->
  exists tree, ast = Some tree /\ spells front tree.
Proof.
  intros Heof Hfront Hrun Herrors.
  destruct (run_outcome _ _ _ _ Hrun) as (_ & token & _ & _ & Hast).
  destruct ast as [tree|].
  2:{ destruct Hast as (reports & Hf & He). rewrite He in Herrors.
      apply app_eq_nil in Herrors as [-> _].
      destruct Hf as [[_ H]|[[_ H]|[[_ H]|(_ & _ & H)]]]; discriminate. }
  exists tree. split; [reflexivity|].
  apply (run_with_mono fuel (fuel + length (front ++ [eof]))) in Hrun; [|lia].
  unfold Parser.run_with in Hrun.
  assert (Hinit : exists first s0,
             Parser.init (front ++ [eof]) = Parser.Return first s0
             /\ well_formed s0 /\ view s0 = front ++ [eof]
             /\ Parser.errors s0 = []).
  { destruct (init_well_formed front eof Heof) as (first & s0 & Hi & Hwf & _).
    exists first, s0. split; [exact Hi|]. split; [exact Hwf|].
    destruct (front ++ [eof]) as [|t rest] eqn:E; [now destruct front|].
    rewrite init_cons in Hi. inversion Hi; subst. now split. }
  destruct Hinit as (first & s0 & Hi & Hwf & Hview & He0). rewrite Hi in Hrun.
  destruct (parse_expr_parses (fuel + length (front ++ [eof])) s0 Hwf)
    as (r & s1 & Hexpr & Hwf1 & Ht1 & Hr); [rewrite Hview; lia|].
  unfold Parser.parse, Parser.bind in Hrun. rewrite Hexpr in Hrun.
  destruct (well_formed_current s1 Hwf1) as [cur Hcur].
  unfold Parser.current at 1 in Hrun. rewrite Hcur in Hrun.
  destruct (TokenType_eqb (Token.type cur) EOF) eqn:Hty; cbn [negb] in Hrun.
  2:{ unfold Parser.current in Hrun. rewrite Hcur in Hrun. simpl in Hrun.
      inversion Hrun; subst. simpl in Herrors. now destruct (Parser.errors s1). }
  apply TokenType_eqb_eq in Hty. simpl in Hrun. inversion Hrun; subst r self.
  destruct Hr as (_ & toks & _ & Hv & Hspells).
  destruct (view_current s1 cur Hwf1 Hcur) as [rest Hrest].
  rewrite Hview, Hrest in Hv.
  destruct (ends_at_eof front toks rest eof cur Hv Hfront Hty) as [-> _].
  exact Hspells.
Qed.

(** X7. When [parse] records no diagnostic on a token list that ends with
    its only [EOF] token, the tokens before the [EOF] spell the tree that it
    returns: their types are those of the tree written back in the grammar, in
    order, and the values of the [INT] tokens are its literals. *)
Theorem parse_reads_all_tokens (fuel : nat) (front : list Token.t) (eof : Token.t)
  (ast : option AST) (self : Parser.t) :
  Token.type eof = EOF ->
  Forall (fun token => Token.type token <> EOF) front ->
  Parser.run_with fuel (front ++ [eof]) = Parser.Return ast self ->
  Parser.errors self = [] ->
  exists tree,
    ast = Some tree
    /\ map Token.type front = flatten tree
    /\ map Token.value (filter is_int front) = literals tree.
Proof. exact (accepted_tokens fuel front eof ast self). Qed.

Lemma parse_reads_all_tokens_witness :
  exists tree,
    Some (Pow (lit 2) (lit 3)) = Some tree
    /\ map Token.type pow_call = flatten tree
    /\ map Token.value (filter is_int pow_call) = literals tree.
Proof.
  apply (parse_reads_all_tokens 7 pow_call (Token.Token EOF NoneValue 1 9)
           (Some (Pow (lit 2) (lit 3)))
           (at_token (pow_call ++ [Token.Token EOF NoneValue 1 9]) 7)).
  - reflexivity.
  - repeat (constructor; [discriminate|]). constructor.
  - reflexivity.
  - reflexivity.
Defined.

(** The parser records a diagnostic whenever the scanner did. *)
Lemma scanner_errors_rejected (isdigit : char -> bool) (int : str -> option Z)
  (source : str) (scanner : Scanner.t) (fuel : nat) (ast : option AST) (parser : Parser.t) :
  Scanner.scan isdigit int source = Some scanner ->
  Scanner.errors scanner <> [] ->
  Parser.run_with fuel (Scanner.tokens scanner) = Parser.Return ast parser ->
  Parser.errors parser <> [].
Proof.
  intros Hscan Herr Hrun Hclean.
  destruct (scan_invariants isdigit int source)
    as (self & Hscan' & _ & _ & (Heof & _ & _) & Hpaired & _ & _).
  rewrite Hscan in Hscan'. inversion Hscan'; subst scanner. simpl in *.
  destruct (accepted_tokens fuel (Scanner.tokens self)
              (Token.Token EOF NoneValue (Scanner.line self) (Scanner.col self))
              ast parser eq_refl Heof Hrun Hclean)
    as (tree & _ & Htypes & _).
  unfold paired in Hpaired.
  destruct (filter is_error (Scanner.tokens self)) as [|token rest] eqn:Hfilter.
  - destruct (Scanner.errors self); [contradiction | discriminate].
  - assert (Hin : In token (filter is_error (Scanner.tokens self)))
      by (rewrite Hfilter; now left).
    apply filter_In in Hin as [Hin Hty]. apply TokenType_eqb_eq in Hty.
    assert (Hflat : In ERROR (flatten tree)).
    { rewrite <- Htypes, <- Hty. now apply in_map. }
    now destruct (flatten_types tree ERROR Hflat).
Qed.

(** X8. A text for which the scanner records a diagnostic is never accepted
    by the parser: parsing the tokens of the scanner records a diagnostic
    too. *)
Theorem lexical_error_fails_parse (isdigit : char -> bool) (int : str -> option Z)
  (source : str) (scanner : Scanner.t) (fuel : nat) (ast : option AST) (parser : Parser.t) :
  Scanner.scan isdigit int source = Some scanner ->
  Scanner.errors scanner <> [] ->
  Parser.run_with fuel (Scanner.tokens scanner) = Parser.Return ast parser ->
  Parser.errors parser <> [].
Proof. exact (scanner_errors_rejected isdigit int source scanner fuel ast parser). Qed.

Lemma lexical_error_fails_parse_witness : Parser.errors at_sign_parser <> [].
Proof.
  apply (lexical_error_fails_parse ascii_isdigit ascii_int (text "1@2") at_sign_scanner
           4 (Some (lit 1)) at_sign_parser).
  - reflexivity.
  - discriminate.
  - reflexivity.
Defined.

(** ** Reading back the spelling of a tree *)









(** ** Parsing the spelling of a tree *)
























(** * The main program *)




